(** * translate_messages: the rate-limited batch-translation command

    A shallow embedding of
    [django_deep_translator/management/commands/translate_messages.py]
    and the properties of its specification.

    The command is a Python class whose methods mutate [self] and talk to
    the outside world (wall clock, file system, translation provider,
    logger).  It is modelled as a state, exception and output monad: the
    state is the record [State], the output is the list of [Event]s the
    run performs, and the outside world answers through the oracles of
    [Env].

    Clock readings ([time.time()]) are Python floats.  The model takes
    their type and arithmetic as a parameter, [TimeArith], with two
    instances: [binary64], the arithmetic of the code, and [exact_time],
    rationals without rounding.  What is proved for every instance holds
    of the code; what is proved of [exact_time] alone says so.  Python
    [int]s are [Z], [str]s are [string]s.

    A catalog is the list of its entries; the file system is a finite map
    from paths to the catalogs the files hold, together with the triples
    [os.walk] yields, which the run does not change (it rewrites files, it
    does not create or remove any).  [po.save()] may raise, as may the
    provider; loading a path that holds no catalog raises.  How polib
    lays a catalog out in its file is not modelled: a file holds the
    catalog that was written to it. *)

From Stdlib Require Import QArith Lqa ZArith Lia Ascii Floats.
From stdpp Require Import base list gmap strings.

Local Open Scope Z_scope.
Set Warnings "-inexact-float".

(** ** Clock readings and their arithmetic

    [time_of_int] is the conversion Python applies to the literals [10]
    and [0] when they meet a float. *)

Class TimeArith (time : Type) := {
  time_of_int : Z -> time;
  time_add : time -> time -> time;
  time_sub : time -> time -> time;
  time_ltb : time -> time -> bool
}.

Definition float_of_int (n : Z) : float :=
  match n with
  | Z0 => 0%float
  | Zpos _ => PrimFloat.of_uint63 (Uint63.of_Z n)
  | Zneg p => PrimFloat.opp (PrimFloat.of_uint63 (Uint63.of_Z (Zpos p)))
  end.

(** Python's floats: IEEE 754 binary64, rounding to nearest *)
#[export] Instance binary64 : TimeArith float := {|
  time_of_int := float_of_int;
  time_add := PrimFloat.add;
  time_sub := PrimFloat.sub;
  time_ltb := PrimFloat.ltb
|}.

Definition Qltb (x y : Q) : bool := negb (Qle_bool y x).

(** Readings without rounding *)
#[export] Instance exact_time : TimeArith Q := {|
  time_of_int := inject_Z;
  time_add := Qplus;
  time_sub := Qminus;
  time_ltb := Qltb
|}.

(** ** Catalog entries (polib.POEntry) *)

Record Entry := {
  msgid : string;
  msgstr : string;
  flags : list string;
  obsolete : bool;
  msgstr_plural : list (Z * string)
}.

(** ** Options stored on [self] by [set_options] *)

Record Options := {
  locale : list string;
  skip_translated : bool;
  set_fuzzy : bool;
  source_language : string;
  limit_translations : option Z;     (* None: the default *)
  requests_per_10s : Z
}.

Inductive Exn :=
| AssertionError (msg : string)
| IndexError
| OSError (path : string).

Inductive Res (A : Type) :=
| Ok (a : A)
| Raise (e : Exn).
Arguments Ok {A} a.
Arguments Raise {A} e.

(** A loop body either falls through to the next iteration or executes
    [return]. *)
Inductive Flow := Continue | Return.

(** ** Strings: the [str] and [posixpath] operations the command uses

    A [string] is read as a sequence of code points below 256. *)

Definition nonempty (s : string) : bool :=
  match s with EmptyString => false | String _ _ => true end.

(** [str.isspace] on one character *)
Definition isspace (c : ascii) : bool :=
  let n := nat_of_ascii c in
  ((9 <=? n)%nat && (n <=? 13)%nat) || ((28 <=? n)%nat && (n <=? 32)%nat)
  || (n =? 133)%nat || (n =? 160)%nat.

Fixpoint lstrip_with (f : ascii -> bool) (s : string) : string :=
  match s with
  | EmptyString => EmptyString
  | String c r => if f c then lstrip_with f r else s
  end.

Fixpoint rstrip_with (f : ascii -> bool) (s : string) : string :=
  match s with
  | EmptyString => EmptyString
  | String c r =>
    match rstrip_with f r with
    | EmptyString => if f c then EmptyString else String c EmptyString
    | r' => String c r'
    end
  end.

(** [s.strip()] *)
Definition strip (s : string) : string :=
  rstrip_with isspace (lstrip_with isspace s).

(** [s[:n]] *)
Fixpoint str_take (n : nat) (s : string) : string :=
  match n, s with
  | S n', String c r => String c (str_take n' r)
  | _, _ => EmptyString
  end.

Fixpoint startswith (s pre : string) : bool :=
  match pre, s with
  | EmptyString, _ => true
  | String p pre', String c s' => bool_decide (c = p) && startswith s' pre'
  | String _ _, EmptyString => false
  end.

(** [s.endswith(suffix)]: some tail of [s] is [suffix] *)
Fixpoint endswith (s suffix : string) : bool :=
  bool_decide (s = suffix)
  || match s with
     | EmptyString => false
     | String _ r => endswith r suffix
     end.

Definition is_sep (c : ascii) : bool := bool_decide (c = "/"%char).

(** [(p[:i], p[i:])] for [i = p.rfind('/') + 1] *)
Fixpoint rsplit_sep (p : string) : string * string :=
  match p with
  | EmptyString => (EmptyString, EmptyString)
  | String c r =>
    match rsplit_sep r with
    | (EmptyString, tail) =>
      if is_sep c then (String c EmptyString, tail)
      else (EmptyString, String c tail)
    | (head, tail) => (String c head, tail)
    end
  end.

(** [posixpath.basename] *)
Definition basename (p : string) : string := snd (rsplit_sep p).

(** [posixpath.dirname]: the head, without its trailing slashes unless
    it consists of slashes only *)
Definition dirname (p : string) : string :=
  let head := fst (rsplit_sep p) in
  if nonempty head && nonempty (lstrip_with is_sep head)
  then rstrip_with is_sep head
  else head.

(** [posixpath.join] of two components *)
Definition join (a b : string) : string :=
  if startswith b "/" then b
  else if negb (nonempty a) || endswith a "/" then a +:+ b
  else a +:+ "/" +:+ b.

(** ** polib: [POEntry.translated] *)

Definition fuzzy (e : Entry) : bool := bool_decide ("fuzzy" ∈ flags e).

Definition translated (e : Entry) : bool :=
  if obsolete e || fuzzy e then false
  else if nonempty (msgstr e) then true
  else match msgstr_plural e with
       | [] => false
       | plural => forallb (fun kv => nonempty kv.2) plural
       end.

Section Model.
Context {time : Type} {arith : TimeArith time}.

(** ** What the program reports and does to the outside world *)

Inductive LogRecord :=
| LimitSet (limit : option Z)
| RateLimit (per_10s : Z)
| LimitReachedStopping (limit : option Z)
| LimitReached (limit : option Z)
| SkippingLocale (target_language : string)
| FillingUp (target_language : string)
| RateLimitWait (sleep_time : time)
| TranslatedEntry (count : Z) (msgid50 msgstr50 : string)
| ErrorTranslating (msgid50 : string) (e : string).

Inductive Event :=
| EvInfo (r : LogRecord)                       (* logger.info *)
| EvError (r : LogRecord)                      (* logger.error *)
| EvSleep (seconds : time)                     (* time.sleep *)
| EvWalk (directory : string)                  (* os.walk *)
| EvLoad (path : string)                       (* polib.pofile *)
| EvTranslate (catalog text source target : string)
      (* translate_string, called while the catalog loaded from [catalog]
         is being processed *)
| EvSave (path : string) (entries : list Entry).
      (* po.save, called with the catalog as it is in memory *)

(** ** Mutable state: the counters of [self] and the world

    [reads] and [calls] index the oracles of [Env]; the program has no
    access to them. *)

Record State := {
  translated_count : Z;               (* self.translated_count *)
  request_times : list time;          (* self.request_times *)
  now : time;                         (* the wall clock *)
  reads : nat;                        (* clock readings taken so far *)
  calls : nat;                        (* translation calls made so far *)
  disk : gmap string (list Entry)     (* the catalogs on disk *)
}.

(** ** The environment: settings and oracles

    [lapse k] is the time that passes before the [k]th reading of the
    clock; [translate_string k] is the provider's answer to the [k]th
    call: a translation or the message of the exception it raises;
    [save_error k path po] tells whether [po.save()], called after [k]
    provider calls to write [po] to [path], raises: [None] if it does
    not, else the message of the exception and the catalog the failed
    save leaves in the file (the old one if the file could not be opened,
    none or a part of the new one otherwise); [walk d] is what
    [os.walk d] yields. *)

Record Env := {
  USE_I18N : bool;
  LOCALE_PATHS : list string;
  walk : string -> list (string * list string * list string);
  lapse : nat -> time;
  translate_string : nat -> string -> string -> string -> string + string;
  save_error : nat -> string -> list Entry -> option (string * list Entry)
}.

(** ** The monad

    A command maps the state to what it returns or raises, the state it
    leaves and the events it performed, in order. *)

Record Run (A : Type) := {
  result : Res A;
  final : State;
  events : list Event
}.
Arguments result {A} r.
Arguments final {A} r.
Arguments events {A} r.

Definition M (A : Type) : Type := State -> Run A.

Definition ret {A} (a : A) : M A :=
  fun s => {| result := Ok a; final := s; events := [] |}.

Definition raise {A} (e : Exn) : M A :=
  fun s => {| result := Raise e; final := s; events := [] |}.

Definition bind {A B} (m : M A) (k : A -> M B) : M B := fun s =>
  match m s with
  | {| result := Ok a; final := s1; events := t1 |} =>
    match k a s1 with
    | {| result := r; final := s2; events := t2 |} =>
      {| result := r; final := s2; events := t1 ++ t2 |}
    end
  | {| result := Raise e; final := s1; events := t1 |} =>
    {| result := Raise e; final := s1; events := t1 |}
  end.

Declare Scope cmd_scope.
Delimit Scope cmd_scope with cmd.
Notation "x ← y ; z" := (bind y (fun x => z))
  (at level 20, y at level 100, z at level 200, only parsing) : cmd_scope.
Notation "x ;; z" := (bind x (fun _ => z))
  (at level 100, z at level 200, only parsing, right associativity)
  : cmd_scope.
Local Open Scope cmd_scope.

(** Field updates *)

Definition with_translated_count (n : Z) (s : State) : State :=
  {| translated_count := n; request_times := request_times s;
     now := now s; reads := reads s; calls := calls s; disk := disk s |}.

Definition with_request_times (l : list time) (s : State) : State :=
  {| translated_count := translated_count s; request_times := l;
     now := now s; reads := reads s; calls := calls s; disk := disk s |}.

Definition with_clock (t : time) (k : nat) (s : State) : State :=
  {| translated_count := translated_count s;
     request_times := request_times s;
     now := t; reads := k; calls := calls s; disk := disk s |}.

Definition with_calls (k : nat) (s : State) : State :=
  {| translated_count := translated_count s;
     request_times := request_times s;
     now := now s; reads := reads s; calls := k; disk := disk s |}.

Definition with_disk (d : gmap string (list Entry)) (s : State) : State :=
  {| translated_count := translated_count s;
     request_times := request_times s;
     now := now s; reads := reads s; calls := calls s; disk := d |}.

Definition emit (ev : Event) : M unit :=
  fun s => {| result := Ok tt; final := s; events := [ev] |}.

Definition logger_info (r : LogRecord) : M unit := emit (EvInfo r).
Definition logger_error (r : LogRecord) : M unit := emit (EvError r).

Definition get_request_times : M (list time) :=
  fun s => {| result := Ok (request_times s); final := s; events := [] |}.
Definition set_request_times (l : list time) : M unit :=
  fun s => {| result := Ok tt; final := with_request_times l s;
              events := [] |}.

Definition get_translated_count : M Z :=
  fun s => {| result := Ok (translated_count s); final := s; events := [] |}.
Definition set_translated_count (n : Z) : M unit :=
  fun s => {| result := Ok tt; final := with_translated_count n s;
              events := [] |}.

(** ** The clock

    Reading the clock lets [lapse] pass first; sleeping moves the clock
    by the duration asked for (what passes beyond it is part of the next
    [lapse]). *)

Definition time_time (env : Env) : M time := fun s =>
  let t := time_add (now s) (lapse env (reads s)) in
  {| result := Ok t; final := with_clock t (S (reads s)) s; events := [] |}.

Definition time_sleep (seconds : time) : M unit := fun s =>
  {| result := Ok tt;
     final := with_clock (time_add (now s) seconds) (reads s) s;
     events := [EvSleep seconds] |}.

(** ** wait_for_rate_limit *)

(** [[t for t in request_times if current_time - t < 10]] *)
Definition recent (current_time : time) (request_times : list time)
  : list time :=
  List.filter (fun t => time_ltb (time_sub current_time t) (time_of_int 10))
    request_times.

Definition wait_for_rate_limit (env : Env) (o : Options) : M unit :=
  current_time ← time_time env;
  times ← get_request_times;
  set_request_times (recent current_time times);;
  times ← get_request_times;
  current_time ←
    (if (requests_per_10s o <=? Z.of_nat (length times))%Z then
       match times with
       | [] => raise IndexError
       | t0 :: _ =>
         let sleep_time :=
           time_sub (time_of_int 10) (time_sub current_time t0) in
         if time_ltb (time_of_int 0) sleep_time then
           logger_info (RateLimitWait sleep_time);;
           time_sleep sleep_time;;
           current_time ← time_time env;
           times ← get_request_times;
           set_request_times (recent current_time times);;
           ret current_time
         else ret current_time
       end
     else ret current_time);
  times ← get_request_times;
  set_request_times (times ++ [current_time]).

(** ** polib: [pofile], [POFile.save] *)

Definition polib_pofile (path : string) : M (list Entry) := fun s =>
  {| result := match disk s !! path with
               | Some po => Ok po
               | None => Raise (OSError path)
               end;
     final := s;
     events := [EvLoad path] |}.

(** What the file holds once [po.save()] has written [po] or failed *)
Definition file_after (failure : option (string * list Entry))
    (po : list Entry) : list Entry :=
  match failure with
  | None => po
  | Some (_, leftover) => leftover
  end.

(** [po.save()]: the value is the message of the exception raised, if
    any; the [try] statement around the call catches it. *)
Definition po_save (env : Env) (path : string) (po : list Entry)
  : M (option string) := fun s =>
  let failure := save_error env (calls s) path po in
  {| result := Ok (fst <$> failure);
     final := with_disk (<[path := file_after failure po]> (disk s)) s;
     events := [EvSave path po] |}.

(** ** The translation capability: [get_translator().translate_string]

    Both calls sit in the [try] statement, so the exception of either is
    the answer [inr]. *)

Definition translator_call (env : Env) (catalog text source target : string)
  : M (string + string) := fun s =>
  {| result := Ok (translate_string env (calls s) text source target);
     final := with_calls (S (calls s)) s;
     events := [EvTranslate catalog text source target] |}.

(** ** translate_file *)

(** [self.limit_translations and
     self.translated_count >= self.limit_translations]:
    [None] and [0] are both false in Python *)
Definition cap_hit (o : Options) (s : State) : bool :=
  match limit_translations o with
  | Some limit => negb (limit =? 0) && (limit <=? translated_count s)
  | None => false
  end.

Definition limit_reached (o : Options) : M bool :=
  fun s => {| result := Ok (cap_hit o s); final := s; events := [] |}.

(** [entry.msgstr = translation], then the optional
    [entry.flags.append('fuzzy')] *)
Definition set_translation (o : Options) (translation : string) (e : Entry)
  : Entry :=
  {| msgid := msgid e;
     msgstr := translation;
     flags := if set_fuzzy o then flags e ++ ["fuzzy"] else flags e;
     obsolete := obsolete e;
     msgstr_plural := msgstr_plural e |}.

(** The [try] statement of the loop body.  [before] and [after] are the
    entries of [po] around [entry], as they are in memory; the result is
    the entry as the statement leaves it.  An exception of [po.save()]
    reaches the same handler as one of the provider, with the entry
    already changed and the counter already raised. *)
Definition try_translate (env : Env) (o : Options)
    (po_file_path target_language : string)
    (before : list Entry) (entry : Entry) (after : list Entry) : M Entry :=
  answer ← translator_call env po_file_path (msgid entry)
             (source_language o) target_language;
  match answer with
  | inl translation =>
    let entry' := set_translation o translation entry in
    count ← get_translated_count;
    set_translated_count (count + 1);;
    failure ← po_save env po_file_path (before ++ entry' :: after);
    match failure with
    | None =>
      count ← get_translated_count;
      logger_info (TranslatedEntry count (str_take 50 (msgid entry'))
                     (str_take 50 (msgstr entry')));;
      ret entry'
    | Some e =>
      logger_error (ErrorTranslating (str_take 50 (msgid entry')) e);;
      ret entry'
    end
  | inr e =>
    logger_error (ErrorTranslating (str_take 50 (msgid entry)) e);;
    ret entry
  end.

(** One iteration of [for entry in po]: [None] stands for
    [return False], [Some e] for falling through to the next iteration
    with the entry now being [e]. *)
Definition translate_entry (env : Env) (o : Options)
    (po_file_path target_language : string)
    (before : list Entry) (entry : Entry) (after : list Entry)
  : M (option Entry) :=
  stop ← limit_reached o;
  if stop then
    logger_info (LimitReached (limit_translations o));;
    ret None
  else if skip_translated o && translated entry then ret (Some entry)
  else if negb (nonempty (strip (msgid entry))) then ret (Some entry)
  else
    wait_for_rate_limit env o;;
    entry' ← try_translate env o po_file_path target_language
               before entry after;
    ret (Some entry').

(** The loop [for entry in po]: the flag is the value [translate_file]
    returns, the list is [po] as the loop leaves it in memory. *)
Fixpoint translate_entries (env : Env) (o : Options)
    (po_file_path target_language : string)
    (before todo : list Entry) : M (bool * list Entry) :=
  match todo with
  | [] => ret (true, before)
  | entry :: after =>
    r ← translate_entry env o po_file_path target_language
          before entry after;
    match r with
    | None => ret (false, before ++ entry :: after)
    | Some entry' =>
      translate_entries env o po_file_path target_language
        (before ++ [entry']) after
    end
  end.

Definition translate_file (env : Env) (o : Options)
    (root file_name target_language : string) : M bool :=
  logger_info (FillingUp target_language);;
  let po_file_path := join root file_name in
  po ← polib_pofile po_file_path;
  r ← translate_entries env o po_file_path target_language [] po;
  ret r.1.

(** ** handle *)

Fixpoint for_ {A} (xs : list A) (body : A -> M Flow) : M Flow :=
  match xs with
  | [] => ret Continue
  | x :: xs' =>
    f ← body x;
    match f with
    | Return => ret Return
    | Continue => for_ xs' body
    end
  end.

Definition set_options : M unit := fun s =>
  {| result := Ok tt;
     final := with_request_times [] (with_translated_count 0 s);
     events := [] |}.

Definition os_walk (env : Env) (directory : string)
  : M (list (string * list string * list string)) :=
  emit (EvWalk directory);;
  ret (walk env directory).

(** The body of [for file in files] *)
Definition handle_file (env : Env) (o : Options) (root file : string)
  : M Flow :=
  stop ← limit_reached o;
  if stop then
    logger_info (LimitReachedStopping (limit_translations o));;
    ret Return
  else if negb (endswith file ".po") then ret Continue
  else
    let target_language := basename (dirname root) in
    if bool_decide (locale o ≠ []) && bool_decide (target_language ∉ locale o)
    then
      logger_info (SkippingLocale target_language);;
      ret Continue
    else
      completed ← translate_file env o root file target_language;
      if completed then ret Continue else ret Return.

(** The body of [for directory in settings.LOCALE_PATHS] *)
Definition handle_directory (env : Env) (o : Options) (directory : string)
  : M Flow :=
  stop ← limit_reached o;
  if stop then
    logger_info (LimitReachedStopping (limit_translations o));;
    ret Return
  else
    triples ← os_walk env directory;
    for_ triples (fun '(root, dirs, files) =>
      for_ files (handle_file env o root)).

(** [if self.limit_translations:] *)
Definition truthy_limit (o : Options) : bool :=
  match limit_translations o with
  | Some limit => negb (limit =? 0)
  | None => false
  end.

Definition handle (env : Env) (o : Options) : M unit :=
  set_options;;
  (if USE_I18N env then ret tt
   else raise (AssertionError "i18n framework is disabled"));;
  (match LOCALE_PATHS env with
   | [] => raise (AssertionError "locale paths is not configured properly")
   | _ => ret tt
   end);;
  (if truthy_limit o then logger_info (LimitSet (limit_translations o))
   else ret tt);;
  logger_info (RateLimit (requests_per_10s o));;
  for_ (LOCALE_PATHS env) (handle_directory env o);;
  ret tt.

(** ** Successive calls of the rate limiter *)

(** The runs of [n] successive calls *)
Fixpoint acquire_states (env : Env) (o : Options) (n : nat) (s : State)
  : list (Run unit) :=
  match n with
  | O => []
  | S n' =>
    let r := wait_for_rate_limit env o s in
    r :: acquire_states env o n' (final r)
  end.

(** The states in which these calls are made *)
Fixpoint acquire_starts (env : Env) (o : Options) (n : nat) (s : State)
  : list State :=
  match n with
  | O => []
  | S n' => s :: acquire_starts env o n' (final (wait_for_rate_limit env o s))
  end.


(** [T - t < 10], the test of the code: [t] is less than ten seconds
    older than [T] *)
Definition within_10s (T t : time) : bool :=
  time_ltb (time_sub T t) (time_of_int 10).

(** The call made in [s] either finds fewer requests on record than the
    limit, or sleeps and then reads a clock that has left the oldest of
    them ten seconds behind, as the code measures it. *)
Definition sleep_suffices (env : Env) (o : Options) (s : State) : bool :=
  let c1 := time_add (now s) (lapse env (reads s)) in
  match recent c1 (request_times s) with
  | [] => true
  | t0 :: l =>
    if requests_per_10s o <=? Z.of_nat (length (t0 :: l)) then
      let sleep_time := time_sub (time_of_int 10) (time_sub c1 t0) in
      let c2 := time_add (time_add c1 sleep_time) (lapse env (S (reads s))) in
      time_ltb (time_of_int 0) sleep_time && negb (within_10s c2 t0)
    else true
  end.

(** The same of [n] successive calls *)
Fixpoint sleeps_suffice (env : Env) (o : Options) (n : nat) (s : State)
  : bool :=
  match n with
  | O => true
  | S n' =>
    sleep_suffices env o s
    && sleeps_suffice env o n' (final (wait_for_rate_limit env o s))
  end.

(** The timestamps a call that returns leaves on record before it adds
    its own: those of [s] that pass the test at the first reading of the
    clock and, if the call sleeps, at the second as well *)
Definition kept_times (env : Env) (o : Options) (s : State) : list time :=
  let c1 := time_add (now s) (lapse env (reads s)) in
  let l1 := recent c1 (request_times s) in
  match l1 with
  | [] => l1
  | t0 :: _ =>
    let sleep_time := time_sub (time_of_int 10) (time_sub c1 t0) in
    if (requests_per_10s o <=? Z.of_nat (length l1))
       && time_ltb (time_of_int 0) sleep_time
    then recent (time_add (time_add c1 sleep_time) (lapse env (S (reads s))))
           l1
    else l1
  end.

(** ** The selection rule and what is read off the events *)

(** The rule of the specification: an entry is selected unless
    [skip_translated] is set and the entry is translated, or its source
    text is empty once stripped. *)
Definition selected (o : Options) (e : Entry) : bool :=
  negb (skip_translated o && translated e) && nonempty (strip (msgid e)).

(** The source texts sent to the provider, in order *)
Definition attempts (tr : list Event) : list string :=
  omap (fun ev => match ev with
                  | EvTranslate _ text _ _ => Some text
                  | _ => None
                  end) tr.

(** The provider calls, in order: catalog, text, source and target
    language *)
Definition provider_calls (tr : list Event)
  : list (string * string * string * string) :=
  omap (fun ev => match ev with
                  | EvTranslate catalog text source target =>
                    Some (catalog, text, source, target)
                  | _ => None
                  end) tr.

(** The calls of [po.save()], in order: path and catalog *)
Definition saves (tr : list Event) : list (string * list Entry) :=
  omap (fun ev => match ev with
                  | EvSave path po => Some (path, po)
                  | _ => None
                  end) tr.

(** What the [try] statement logs once the provider has answered: the
    translation, or the error of the save *)
Definition save_report (count : Z) (entry' : Entry)
    (failure : option (string * list Entry)) : Event :=
  match failure with
  | None =>
    EvInfo (TranslatedEntry count (str_take 50 (msgid entry'))
              (str_take 50 (msgstr entry')))
  | Some (e, _) => EvError (ErrorTranslating (str_take 50 (msgid entry')) e)
  end.

(** Log records, of either level *)
Definition is_log (ev : Event) : bool :=
  match ev with EvInfo _ | EvError _ => true | _ => false end.

(** What the rate limiter may perform *)
Definition is_wait_event (ev : Event) : bool :=
  match ev with
  | EvInfo (RateLimitWait _) | EvSleep _ => true
  | _ => false
  end.

(** Every [po.save()] comes right after a provider call made for the
    catalog it writes; [previous] is the event before those of [t]. *)
Fixpoint saves_follow_calls (previous : option Event) (t : list Event)
  : bool :=
  match t with
  | [] => true
  | ev :: rest =>
    match ev with
    | EvSave path _ =>
      match previous with
      | Some (EvTranslate catalog _ _ _) => bool_decide (path = catalog)
      | _ => false
      end
    | _ => true
    end
    && saves_follow_calls (Some ev) rest
  end.

(** ** Auxiliary notions for the properties of the loops *)

(** Events that change nothing: log records, walks and loads *)
Definition is_progress (ev : Event) : bool :=
  match ev with
  | EvInfo _ | EvWalk _ | EvLoad _ => true
  | _ => false
  end.

(** A name without a slash, as [os.walk] yields them *)
Fixpoint no_sep (s : string) : bool :=
  match s with
  | EmptyString => true
  | String c r => negb (is_sep c) && no_sep r
  end.

(** The options with the cap taken away *)
Definition uncapped (o : Options) : Options :=
  {| locale := locale o; skip_translated := skip_translated o;
     set_fuzzy := set_fuzzy o; source_language := source_language o;
     limit_translations := None; requests_per_10s := requests_per_10s o |}.

(** Nothing but log records *)
Definition quiet (t : list Event) : bool := forallb is_log t.

(** What is logged right after the save of translation number [L]: the
    translation, or the error if the save raised *)
Definition reports (L : Z) (ev : Event) : Prop :=
  (exists a b, ev = EvInfo (TranslatedEntry L a b))
  \/ (exists a e, ev = EvError (ErrorTranslating a e)).

(** [t] ends with the save of translation number [L] and its report,
    followed by log records only *)
Definition seals (L : Z) (t : list Event) : Prop :=
  exists pre path po report logs,
    t = pre ++ [EvSave path po; report] ++ logs
    /\ reports L report
    /\ quiet logs = true.

(** What a stretch of a capped run does to the counter: it counts the
    saves, stays below the cap, and once at the cap only logs. *)
Definition capped_step (L : Z) (s s' : State) (t : list Event) : Prop :=
  translated_count s' = translated_count s + Z.of_nat (length (saves t))
  /\ (translated_count s <= L ->
      translated_count s' <= L
      /\ (translated_count s' = L ->
          if translated_count s =? L then quiet t = true else seals L t)).

(** The capped run [rc] stopped at the cap while the uncapped run [ru]
    went on: up to log records, what it did is an initial part of what
    [ru] did. *)
Definition stopped_early {A} (L : Z) (rc ru : Run A) : Prop :=
  L <= translated_count (final rc)
  /\ exists t logs,
       events rc = t ++ logs /\ quiet logs = true
       /\ t `prefix_of` events ru.

(** A capped and an uncapped run from the same state either agree or
    the capped one has stopped early, returning a value that ends the
    loop. *)
Definition sim {A} (stops : A -> bool) (L : Z) (rc ru : Run A) : Prop :=
  rc = ru
  \/ ((exists a, result rc = Ok a /\ stops a = true)
      /\ stopped_early L rc ru).

Definition is_return (f : Flow) : bool :=
  match f with Return => true | Continue => false end.

(** ** Notions for the further properties *)

(** What a stretch of any run does to the counters: one more
    translation counted for each call of [po.save()], one more provider
    call for each attempt, and no save without an attempt. *)
Definition counted_step (s s' : State) (t : list Event) : Prop :=
  translated_count s' = translated_count s + Z.of_nat (length (saves t))
  /\ calls s' = (calls s + length (attempts t))%nat
  /\ (length (saves t) <= length (attempts t))%nat.

(** The run raises nothing but exceptions in [E]. *)
Definition raises_only {A} (E : Exn -> Prop) (r : Run A) : Prop :=
  forall e, result r = Raise e -> E e.

(** With an empty list of request times nothing has been attempted and
    nothing changes. *)
Definition idle_step (s s' : State) (t : list Event) : Prop :=
  request_times s = [] ->
  request_times s' = [] /\ attempts t = [] /\ saves t = []
  /\ disk s' = disk s /\ translated_count s' = translated_count s.

(** An entry as the run may leave it: the source text, the obsolete
    mark and the plural forms are those of [e], and nothing at all has
    changed unless the rule selects [e]. *)
Definition edited (o : Options) (e e' : Entry) : Prop :=
  msgid e' = msgid e /\ obsolete e' = obsolete e
  /\ msgstr_plural e' = msgstr_plural e
  /\ (selected o e = false -> e' = e).

(** [path] is a [.po] file of the walk of a configured directory, of a
    locale the allow-list lets through. *)
Definition walked_catalog (env : Env) (o : Options) (path : string) : Prop :=
  exists directory root dirs files file,
    directory ∈ LOCALE_PATHS env
    /\ (root, dirs, files) ∈ walk env directory
    /\ file ∈ files
    /\ endswith file ".po" = true
    /\ path = join root file
    /\ (locale o = [] \/ basename (dirname root) ∈ locale o).

(** The two ways a run with a positive rate can fail: the
    configuration is refused, or a walked catalog cannot be loaded. *)
Definition config_or_load_error (env : Env) (o : Options) (e : Exn) : Prop :=
  (exists msg, e = AssertionError msg
               /\ (USE_I18N env = false \/ LOCALE_PATHS env = []))
  \/ (exists path, e = OSError path /\ walked_catalog env o path).

(** The event concerns a walked catalog or a configured directory. *)
Definition within_walk (env : Env) (o : Options) (ev : Event) : Prop :=
  match ev with
  | EvLoad path | EvSave path _ | EvTranslate path _ _ _ =>
    walked_catalog env o path
  | EvWalk directory => directory ∈ LOCALE_PATHS env
  | _ => True
  end.

(** The event, if it names a catalog, names [path]; it is no walk and
    no load. *)
Definition about_catalog (path : string) (ev : Event) : Prop :=
  match ev with
  | EvSave p _ | EvTranslate p _ _ _ => p = path
  | EvLoad _ | EvWalk _ => False
  | _ => True
  end.

(** The directories walked, in order *)
Definition walks (tr : list Event) : list string :=
  omap (fun ev => match ev with
                  | EvWalk directory => Some directory
                  | _ => None
                  end) tr.

(** What the provider may be sent: the configured source language and
    a text that is not blank. *)
Definition well_formed_call (o : Options) (ev : Event) : Prop :=
  match ev with
  | EvTranslate _ text source _ =>
    source = source_language o /\ nonempty (strip text) = true
  | _ => True
  end.

End Model.

Arguments LogRecord : clear implicits.
Arguments Event : clear implicits.
Arguments State : clear implicits.
Arguments Env : clear implicits.
Arguments Run : clear implicits.
Arguments M : clear implicits.
Arguments result {time A} r.
Arguments final {time A} r.
Arguments events {time A} r.

(** ** Notions for readings without rounding *)



(** ** Concrete inputs used in the examples below *)

Definition fresh_state : State Q :=
  {| translated_count := 0; request_times := []; now := 0%Q;
     reads := 0; calls := 0; disk := ∅ |}.

Definition entry (id str : string) : Entry :=
  {| msgid := id; msgstr := str; flags := []; obsolete := false;
     msgstr_plural := [] |}.

Definition options (limit : option Z) (per_10s : Z) : Options :=
  {| locale := []; skip_translated := false; set_fuzzy := false;
     source_language := "en"; limit_translations := limit;
     requests_per_10s := per_10s |}.

(** One catalog in the conventional layout; a second passes between
    clock readings; the provider answers every call and every save goes
    through. *)
Definition demo_env : Env Q :=
  {| USE_I18N := true;
     LOCALE_PATHS := ["locale"];
     walk := fun _ =>
       [("locale", ["fr"], []);
        ("locale/fr", ["LC_MESSAGES"], []);
        ("locale/fr/LC_MESSAGES", [], ["django.po"])];
     lapse := fun _ => 1%Q;
     translate_string := fun _ text _ target => inl (target +:+ ":" +:+ text);
     save_error := fun _ _ _ => None |}.

(** As [demo_env], with a provider that raises on every call *)
Definition failing_env : Env Q :=
  {| USE_I18N := true;
     LOCALE_PATHS := LOCALE_PATHS demo_env;
     walk := walk demo_env;
     lapse := lapse demo_env;
     translate_string := fun _ _ _ _ => inr "provider down";
     save_error := save_error demo_env |}.

(** As [demo_env], with internationalisation switched off *)
Definition no_i18n_env : Env Q :=
  {| USE_I18N := false;
     LOCALE_PATHS := LOCALE_PATHS demo_env;
     walk := walk demo_env;
     lapse := lapse demo_env;
     translate_string := translate_string demo_env;
     save_error := save_error demo_env |}.

(** As [demo_env], with a file that cannot be written: every save
    raises and leaves the file empty *)
Definition read_only_env : Env Q :=
  {| USE_I18N := true;
     LOCALE_PATHS := LOCALE_PATHS demo_env;
     walk := walk demo_env;
     lapse := lapse demo_env;
     translate_string := translate_string demo_env;
     save_error := fun _ _ _ => Some ("disk full", []) |}.

(** As [failing_env], with eleven seconds between clock readings *)
Definition slow_failing_env : Env Q :=
  {| USE_I18N := true;
     LOCALE_PATHS := LOCALE_PATHS demo_env;
     walk := walk demo_env;
     lapse := fun _ => 11%Q;
     translate_string := translate_string failing_env;
     save_error := save_error demo_env |}.

(** A catalog directly under a configured directory whose name is given
    with a trailing slash *)
Definition flat_env : Env Q :=
  {| USE_I18N := true;
     LOCALE_PATHS := ["locale/"];
     walk := fun _ => [("locale/", [], ["top.po"])];
     lapse := lapse demo_env;
     translate_string := translate_string demo_env;
     save_error := save_error demo_env |}.

(** The clock is set back by three seconds while the second call of the
    rate limiter sleeps. *)
Definition stepping_back_env : Env Q :=
  {| USE_I18N := true;
     LOCALE_PATHS := LOCALE_PATHS demo_env;
     walk := walk demo_env;
     lapse := fun k => match k with
                       | O => 1%Q
                       | S O => 4%Q
                       | _ => (-3)%Q
                       end;
     translate_string := translate_string demo_env;
     save_error := save_error demo_env |}.

(** The arithmetic of the code: a clock on which no time passes between
    readings except in [time.sleep], which lasts exactly as long as
    asked. *)
Definition binary64_env (seconds : float) : Env float :=
  {| USE_I18N := true;
     LOCALE_PATHS := LOCALE_PATHS demo_env;
     walk := walk demo_env;
     lapse := fun _ => seconds;
     translate_string := translate_string demo_env;
     save_error := save_error demo_env |}.

Definition binary64_state (times : list float) (t : float) : State float :=
  {| translated_count := 0; request_times := times; now := t;
     reads := 0; calls := 0; disk := ∅ |}.

Definition demo_path : string := "locale/fr/LC_MESSAGES/django.po".

(** * Properties *)

(** ** The model on concrete inputs *)

Example posixpath_examples :
  dirname "locale/fr/LC_MESSAGES" = "locale/fr"
  /\ basename "locale/fr" = "fr"
  /\ dirname "locale/" = "locale"
  /\ dirname "//a" = "//"
  /\ dirname "a//b/" = "a//b"
  /\ basename "a/b/" = ""
  /\ join "locale/fr/LC_MESSAGES" "django.po" = demo_path
  /\ join "a/" "b" = "a/b"
  /\ join "a" "/b" = "/b"
  /\ join "" "b" = "b".
Proof. repeat split. Qed.

Example str_examples :
  strip "  a b  " = "a b"
  /\ strip "   " = ""
  /\ endswith "django.po" ".po" = true
  /\ endswith "po" ".po" = false
  /\ str_take 2 "abc" = "ab"
  /\ str_take 5 "abc" = "abc".
Proof. repeat split. Qed.

Example translated_examples :
  translated (entry "Hello" "Bonjour") = true
  /\ translated (entry "Hello" "") = false
  /\ translated {| msgid := "Hello"; msgstr := "Bonjour"; flags := ["fuzzy"];
                   obsolete := false; msgstr_plural := [] |} = false.
Proof. repeat split. Qed.

(** A run over one catalog of one entry, limit of ten requests. *)
Example handle_example :
  let s := with_disk {[demo_path := [entry "Hello" ""]]} fresh_state in
  let r := handle demo_env (options None 10) s in
  result r = Ok tt
  /\ events r
     = [EvInfo (RateLimit 10); EvWalk "locale"; EvInfo (FillingUp "fr");
        EvLoad demo_path; EvTranslate demo_path "Hello" "en" "fr";
        EvSave demo_path [entry "Hello" "fr:Hello"];
        EvInfo (TranslatedEntry 1 "Hello" "fr:Hello")]
  /\ disk (final r) !! demo_path = Some [entry "Hello" "fr:Hello"]
  /\ translated_count (final r) = 1
  /\ request_times (final r) = [1%Q].
Proof. vm_compute. repeat split. Qed.

(** The same run when the save raises: the translation is counted and
    reported as an error, and the file is left as the failed save left
    it. *)
Example failed_save_example :
  let s := with_disk {[demo_path := [entry "Hello" ""]]} fresh_state in
  let r := handle read_only_env (options None 10) s in
  result r = Ok tt
  /\ events r
     = [EvInfo (RateLimit 10); EvWalk "locale"; EvInfo (FillingUp "fr");
        EvLoad demo_path; EvTranslate demo_path "Hello" "en" "fr";
        EvSave demo_path [entry "Hello" "fr:Hello"];
        EvError (ErrorTranslating "Hello" "disk full")]
  /\ disk (final r) !! demo_path = Some []
  /\ translated_count (final r) = 1.
Proof. vm_compute. repeat split. Qed.

(** The arithmetic of the code on the readings used below *)
Example binary64_examples :
  time_sub (10.299999999999999)%float (0.3)%float
  = (9.9999999999999982)%float
  /\ time_sub (time_of_int 10) (time_sub (0.6)%float (0.3)%float)
     = (9.6999999999999993)%float
  /\ time_add (0.6)%float (9.6999999999999993)%float
     = (10.299999999999999)%float
  /\ time_ltb (9.9999999999999982)%float (time_of_int 10) = true.
Proof. vm_compute. repeat split. Qed.

(** Projections of explicit runs and states *)
Ltac simpl_state :=
  cbn [result final events translated_count request_times now reads calls
       disk with_translated_count with_request_times with_clock with_calls
       with_disk].

Tactic Notation "simpl_state" "in" hyp(H) :=
  cbn [result final events translated_count request_times now reads calls
       disk with_translated_count with_request_times with_clock with_calls
       with_disk] in H.

(** ** Sequencing *)

Section Sequencing.
Context {time : Type}.
Implicit Types (s : State time).

Lemma bind_Ok {A B} (m : M time A) (k : A -> M time B) s (a : A) :
  result (m s) = Ok a ->
  bind m k s =
  {| result := result (k a (final (m s)));
     final := final (k a (final (m s)));
     events := events (m s) ++ events (k a (final (m s))) |}.
Proof.
  unfold bind. destruct (m s) as [r s1 t1]. cbn. intros ->.
  destruct (k a s1). reflexivity.
Qed.

Lemma bind_Raise {A B} (m : M time A) (k : A -> M time B) s (e : Exn) :
  result (m s) = Raise e ->
  bind m k s =
  {| result := Raise e; final := final (m s); events := events (m s) |}.
Proof.
  unfold bind. destruct (m s) as [r s1 t1]. cbn. intros ->. reflexivity.
Qed.

End Sequencing.

(** ** The rate limiter *)

Section RateLimiter.
Context {time : Type} {arith : TimeArith time}.
Implicit Types (env : Env time) (o : Options) (s : State time).

(** What one call does, as a function of the state. *)
Lemma wait_for_rate_limit_eq env o s :
  let c1 := time_add (now s) (lapse env (reads s)) in
  let l1 := recent c1 (request_times s) in
  wait_for_rate_limit env o s =
  if requests_per_10s o <=? Z.of_nat (length l1) then
    match l1 with
    | [] =>
      {| result := Raise IndexError;
         final := with_request_times [] (with_clock c1 (S (reads s)) s);
         events := [] |}
    | t0 :: _ =>
      let sleep_time := time_sub (time_of_int 10) (time_sub c1 t0) in
      if time_ltb (time_of_int 0) sleep_time then
        let c2 := time_add (time_add c1 sleep_time) (lapse env (S (reads s))) in
        {| result := Ok tt;
           final := with_request_times (recent c2 l1 ++ [c2])
                      (with_clock c2 (S (S (reads s))) s);
           events := [EvInfo (RateLimitWait sleep_time); EvSleep sleep_time] |}
      else
        {| result := Ok tt;
           final := with_request_times (l1 ++ [c1])
                      (with_clock c1 (S (reads s)) s);
           events := [] |}
    end
  else
    {| result := Ok tt;
       final := with_request_times (l1 ++ [c1]) (with_clock c1 (S (reads s)) s);
       events := [] |}.
Proof.
  intros c1 l1. unfold wait_for_rate_limit, bind, ret, raise, time_time,
    get_request_times, set_request_times, logger_info, emit, time_sleep.
  cbn -[recent time_add time_sub time_ltb time_of_int]. fold c1. fold l1.
  destruct (requests_per_10s o <=? Z.of_nat (length l1)); [|reflexivity].
  destruct l1 as [|t0 l] eqn:El; [reflexivity|].
  destruct (time_ltb (time_of_int 0) _); reflexivity.
Qed.

Lemma recent_length (c : time) l : (length (recent c l) <= length l)%nat.
Proof. apply List.filter_length_le. Qed.

Lemma recent_within (c : time) l :
  Forall (fun t => within_10s c t = true) (recent c l).
Proof.
  apply Forall_forall. intros t Ht.
  apply list_elem_of_In, List.filter_In in Ht as [_ Ht]. exact Ht.
Qed.

Lemma recent_sublist (c : time) l : recent c l `sublist_of` l.
Proof.
  unfold recent. induction l as [|t l IH]; cbn; [done|].
  destruct (time_ltb _ _); [by apply sublist_skip | by apply sublist_cons].
Qed.

(** C3, amended.  Whenever the limit is at least one, or a request of
    the last ten seconds is on record, the call returns without an
    exception and records the request: the newest timestamp is the time of
    return.  This holds in every state, for every clock and for every
    arithmetic of the readings. *)
Theorem wait_for_rate_limit_returns env o s :
  1 <= requests_per_10s o
  \/ recent (time_add (now s) (lapse env (reads s))) (request_times s) <> [] ->
  let r := wait_for_rate_limit env o s in
  result r = Ok tt
  /\ last (request_times (final r)) = Some (now (final r)).
Proof.
  intros H. rewrite wait_for_rate_limit_eq. cbv zeta.
  destruct (requests_per_10s o <=? _) eqn:Efull.
  - apply Z.leb_le in Efull.
    destruct (recent _ (request_times s)) as [|t0 l] eqn:El.
    + exfalso. destruct H as [H|H]; [simpl in Efull; lia | done].
    + destruct (time_ltb (time_of_int 0) _); (split; [reflexivity|]);
        cbn -[recent app]; apply last_snoc.
  - split; [reflexivity|]. cbn -[recent app]. apply last_snoc.
Qed.

End RateLimiter.

Lemma wait_for_rate_limit_returns_witness :
  let r := wait_for_rate_limit demo_env (options None 2) fresh_state in
  result r = Ok tt
  /\ last (request_times (final r)) = Some (now (final r)).
Proof.
  apply (wait_for_rate_limit_returns demo_env (options None 2) fresh_state).
  left. simpl. lia.
Defined.

(** C3, counterexample.  With a limit of zero and no request on record
    the call raises [IndexError]; with a limit of zero and one recent
    request it sleeps, returns and records the new request. *)
Lemma wait_for_rate_limit_zero_limit :
  result (wait_for_rate_limit demo_env (options None 0) fresh_state)
  = Raise IndexError
  /\ (let s := with_request_times [5%Q] (with_clock 6%Q 0 fresh_state) in
      let r := wait_for_rate_limit demo_env (options None 0) s in
      result r = Ok tt /\ request_times (final r) = [16%Q]
      /\ events r = [EvInfo (RateLimitWait 8%Q); EvSleep 8%Q]).
Proof. vm_compute. auto. Qed.

(** ** The loop body of [translate_file] *)

Section LoopBody.
Context {time : Type} {arith : TimeArith time}.
Implicit Types (env : Env time) (o : Options) (s : State time).

Lemma try_translate_eq env o path tgt before entry after s :
  try_translate env o path tgt before entry after s =
  match translate_string env (calls s) (msgid entry) (source_language o) tgt
  with
  | inl translation =>
    let entry' := set_translation o translation entry in
    let po' := before ++ entry' :: after in
    let failure := save_error env (S (calls s)) path po' in
    {| result := Ok entry';
       final := with_disk (<[path := file_after failure po']> (disk s))
                  (with_translated_count (translated_count s + 1)
                     (with_calls (S (calls s)) s));
       events := [EvTranslate path (msgid entry) (source_language o) tgt;
                  EvSave path po';
                  save_report (translated_count s + 1) entry' failure] |}
  | inr e =>
    {| result := Ok entry;
       final := with_calls (S (calls s)) s;
       events := [EvTranslate path (msgid entry) (source_language o) tgt;
                  EvError (ErrorTranslating (str_take 50 (msgid entry)) e)] |}
  end.
Proof.
  unfold try_translate, bind, translator_call, po_save.
  cbn beta iota zeta.
  destruct (translate_string env _ _ _ _); [|reflexivity].
  cbn -[set_translation].
  destruct (save_error env _ _ _) as [[e leftover]|]; reflexivity.
Qed.

Lemma translate_entry_eq env o path tgt before entry after s :
  translate_entry env o path tgt before entry after s =
  if cap_hit o s then
    {| result := Ok None; final := s;
       events := [EvInfo (LimitReached (limit_translations o))] |}
  else if selected o entry then
    let w := wait_for_rate_limit env o s in
    match result w with
    | Ok _ =>
      let t := try_translate env o path tgt before entry after (final w) in
      {| result := match result t with
                   | Ok entry' => Ok (Some entry')
                   | Raise e => Raise e
                   end;
         final := final t;
         events := events w ++ events t |}
    | Raise e => {| result := Raise e; final := final w; events := events w |}
    end
  else {| result := Ok (Some entry); final := s; events := [] |}.
Proof.
  unfold translate_entry, selected, bind, limit_reached.
  destruct (cap_hit o s); [reflexivity|].
  destruct (skip_translated o && translated entry); [reflexivity|].
  destruct (nonempty (strip (msgid entry))); [|reflexivity].
  cbn [negb andb app].
  destruct (wait_for_rate_limit env o s) as [[[]|e] s1 t1]; [|reflexivity].
  cbn [result final events].
  destruct (try_translate env o path tgt before entry after s1)
    as [[e'|e] s2 t2]; cbn; rewrite ?app_nil_r; reflexivity.
Qed.

(** The rate limiter touches the counter, the disk and the provider not
    at all, and performs at most a notice and a sleep. *)
Lemma wait_for_rate_limit_frame env o s :
  let w := wait_for_rate_limit env o s in
  translated_count (final w) = translated_count s
  /\ disk (final w) = disk s
  /\ calls (final w) = calls s
  /\ forallb is_wait_event (events w) = true.
Proof.
  rewrite wait_for_rate_limit_eq. cbv zeta.
  destruct (requests_per_10s o <=? _).
  - destruct (recent _ (request_times s)) as [|t0 l]; [done|].
    destruct (time_ltb (time_of_int 0) _); done.
  - done.
Qed.

Lemma wait_events_silent (w : list (Event time)) :
  forallb is_wait_event w = true -> saves w = [] /\ attempts w = [].
Proof.
  induction w as [|[[]| | | | | |] w IH]; cbn; intros H;
    try discriminate; auto.
Qed.

Lemma wait_events_no_call (w : list (Event time)) :
  forallb is_wait_event w = true -> provider_calls w = [].
Proof.
  induction w as [|[[]| | | | | |] w IH]; cbn; intros H;
    try discriminate; auto.
Qed.

Lemma wait_for_rate_limit_ok env o s u :
  result (wait_for_rate_limit env o s) = Ok u ->
  last (request_times (final (wait_for_rate_limit env o s)))
  = Some (now (final (wait_for_rate_limit env o s))).
Proof.
  rewrite wait_for_rate_limit_eq. cbv zeta.
  destruct (requests_per_10s o <=? _).
  - destruct (recent _ (request_times s)) as [|t0 l]; [discriminate|].
    destruct (time_ltb (time_of_int 0) _); intros _; cbn -[recent app];
      apply last_snoc.
  - intros _. cbn -[recent app]. apply last_snoc.
Qed.

Lemma wait_never_raises env o s :
  1 <= requests_per_10s o -> result (wait_for_rate_limit env o s) = Ok tt.
Proof.
  intros Hmax. rewrite wait_for_rate_limit_eq. cbv zeta.
  destruct (requests_per_10s o <=? _) eqn:Efull; [|done].
  apply Z.leb_le in Efull.
  destruct (recent _ (request_times s)) as [|t0 l];
    [simpl in Efull; lia|].
  by destruct (time_ltb (time_of_int 0) _).
Qed.

(** A call that returns appends the reading at which it returns to the
    timestamps it kept, which are timestamps of before, all of them
    less than ten seconds older than that reading. *)
Lemma wait_for_rate_limit_appends env o s u :
  let w := wait_for_rate_limit env o s in
  result w = Ok u ->
  request_times (final w) = kept_times env o s ++ [now (final w)]
  /\ kept_times env o s `sublist_of` request_times s
  /\ Forall (fun t => within_10s (now (final w)) t = true) (kept_times env o s).
Proof.
  cbv zeta. rewrite wait_for_rate_limit_eq. unfold kept_times. cbv zeta.
  pose proof (recent_sublist (time_add (now s) (lapse env (reads s)))
                (request_times s)) as Hsub.
  pose proof (recent_within (time_add (now s) (lapse env (reads s)))
                (request_times s)) as Hin.
  destruct (recent _ (request_times s)) as [|t0 l] eqn:El.
  { destruct (requests_per_10s o <=? _); [done|]. by simpl_state. }
  destruct (requests_per_10s o <=? _); cbn [andb]; [|by simpl_state].
  destruct (time_ltb (time_of_int 0) _); [|by simpl_state].
  intros _. simpl_state. split; [done|]. split.
  - etransitivity; [apply recent_sublist|done].
  - apply recent_within.
Qed.

Lemma str_take_length n (s : string) : (String.length (str_take n s) <= n)%nat.
Proof.
  revert s. induction n as [|n IH]; intros [|c s]; simpl; try lia.
  specialize (IH s). lia.
Qed.

Lemma saves_app (t1 t2 : list (Event time)) :
  saves (t1 ++ t2) = saves t1 ++ saves t2.
Proof. apply omap_app. Qed.

Lemma attempts_app (t1 t2 : list (Event time)) :
  attempts (t1 ++ t2) = attempts t1 ++ attempts t2.
Proof. apply omap_app. Qed.

Lemma provider_calls_app (t1 t2 : list (Event time)) :
  provider_calls (t1 ++ t2) = provider_calls t1 ++ provider_calls t2.
Proof. apply omap_app. Qed.

Lemma save_report_is_log count entry' failure :
  is_log (time := time) (save_report count entry' failure) = true.
Proof. by destruct failure as [[]|]. Qed.

(** C5.  When the provider raises for an entry, the iteration logs the
    error with at most fifty characters of the source text, leaves the
    entry, the counter and the disk as they were, saves nothing, and the
    loop goes on with the next entry, the cap still not reached. *)
Theorem translation_error_is_local env o
    (path tgt : string) (before : list Entry) (entry : Entry)
    (after : list Entry) s (e : string) :
  cap_hit o s = false ->
  selected o entry = true ->
  result (wait_for_rate_limit env o s) = Ok tt ->
  translate_string env (calls s) (msgid entry) (source_language o) tgt
    = inr e ->
  let w := wait_for_rate_limit env o s in
  let r := translate_entry env o path tgt before entry after s in
  let rest := translate_entries env o path tgt (before ++ [entry]) after
                (final r) in
  result r = Ok (Some entry)
  /\ events r
     = events w
       ++ [EvTranslate path (msgid entry) (source_language o) tgt;
           EvError (ErrorTranslating (str_take 50 (msgid entry)) e)]
  /\ (String.length (str_take 50 (msgid entry)) <= 50)%nat
  /\ translated_count (final r) = translated_count s
  /\ disk (final r) = disk s
  /\ saves (events r) = []
  /\ cap_hit o (final r) = false
  /\ translate_entries env o path tgt before (entry :: after) s
     = {| result := result rest; final := final rest;
          events := events r ++ events rest |}.
Proof.
  intros Hcap Hsel Hwait Herr w r rest.
  destruct (wait_for_rate_limit_frame env o s) as (Hc & Hd & Hk & Hev).
  destruct (wait_events_silent _ Hev) as [Hsv _].
  fold w in Hc, Hd, Hk, Hev, Hsv, Hwait.
  assert (Hr : r = {| result := Ok (Some entry);
                      final := with_calls (S (calls s)) (final w);
                      events := events w
                        ++ [EvTranslate path (msgid entry)
                              (source_language o) tgt;
                            EvError (ErrorTranslating
                                       (str_take 50 (msgid entry)) e)] |}).
  { subst r. rewrite translate_entry_eq, Hcap, Hsel. cbv zeta.
    fold w. rewrite Hwait, try_translate_eq, Hk, Herr. reflexivity. }
  assert (Hfin : translated_count (final r) = translated_count s).
  { rewrite Hr. exact Hc. }
  split; [by rewrite Hr|]. split; [by rewrite Hr|].
  split; [apply str_take_length|]. split; [exact Hfin|].
  split; [rewrite Hr; exact Hd|].
  split; [rewrite Hr; cbn [events]; rewrite saves_app, Hsv; done|].
  split.
  - unfold cap_hit in *. rewrite Hfin. exact Hcap.
  - cbn [translate_entries].
    rewrite (bind_Ok _ _ s (Some entry)); [reflexivity|].
    fold r. by rewrite Hr.
Qed.

(** C8.  An iteration that ends normally leaves the flags alone when
    [set_fuzzy] is off; when the provider returned a translation, the
    entry carries that translation, and with [set_fuzzy] on its flags are
    the old ones followed by "fuzzy"; the catalog passed to [po.save()]
    holds the entry in this form, and so does the file afterwards unless
    the save raises, in which case the file is as the failed save left
    it.  An iteration that does not raise the counter leaves the
    entry as it was. *)
Theorem set_fuzzy_flag env o (path tgt : string)
    (before : list Entry) (entry : Entry) (after : list Entry)
    s (entry' : Entry) :
  let r := translate_entry env o path tgt before entry after s in
  result r = Ok (Some entry') ->
  (set_fuzzy o = false -> flags entry' = flags entry)
  /\ (forall translation,
        cap_hit o s = false ->
        selected o entry = true ->
        result (wait_for_rate_limit env o s) = Ok tt ->
        translate_string env (calls s) (msgid entry) (source_language o) tgt
          = inl translation ->
        msgstr entry' = translation
        /\ (set_fuzzy o = true ->
            flags entry' = flags entry ++ ["fuzzy"] /\ fuzzy entry' = true)
        /\ translated_count (final r) = translated_count s + 1
        /\ saves (events r) = [(path, before ++ entry' :: after)]
        /\ disk (final r) !! path
           = Some (file_after
                     (save_error env (S (calls s)) path
                        (before ++ entry' :: after))
                     (before ++ entry' :: after))
        /\ (save_error env (S (calls s)) path (before ++ entry' :: after)
            = None ->
            disk (final r) !! path = Some (before ++ entry' :: after)))
  /\ (translated_count (final r) = translated_count s -> entry' = entry).
Proof.
  intros r. subst r. rewrite translate_entry_eq.
  destruct (cap_hit o s) eqn:Hcap; [discriminate|].
  destruct (selected o entry) eqn:Hsel.
  2:{ intros [= <-]. repeat split; auto; intros; discriminate. }
  destruct (wait_for_rate_limit_frame env o s) as (Hc & Hd & Hk & Hev).
  destruct (wait_events_silent _ Hev) as [Hsv _].
  cbv zeta.
  destruct (result (wait_for_rate_limit env o s)) as [[]|x] eqn:Hwait;
    [|discriminate].
  rewrite try_translate_eq, Hk. cbv zeta.
  destruct (translate_string env (calls s) _ _ _) as [tr|err] eqn:Hans.
  - intros [= <-]. simpl_state. split; [|split].
    + intros Hf. cbn. by rewrite Hf.
    + intros tr' _ _ _ [= <-].
      split; [done|]. split; [|split; [lia|split; [|split]]].
      * intros Hf. cbn. rewrite Hf. split; [done|].
        unfold fuzzy. cbn. rewrite Hf. apply bool_decide_eq_true.
        apply elem_of_app. right. apply list_elem_of_singleton. done.
      * rewrite saves_app, Hsv.
        by destruct (save_error env _ _ _) as [[]|].
      * apply lookup_insert_eq.
      * intros ->. apply lookup_insert_eq.
    + lia.
  - intros [= <-]. split; [done|]. split; [|done].
    intros tr' _ _ _ [=].
Qed.

(** C10, amended.  An iteration that does not attempt its entry leaves
    the request times and the provider alone.  With a rate of at least
    one, an iteration that attempts it first calls the rate limiter, which
    returns and adds one timestamp, the reading at which it returns, to
    those it kept: timestamps of before, none of them ten seconds older
    than the new one.  Then the provider is called, once, and the [try]
    statement leaves the request times as the limiter left them, whether
    the provider answers or raises and whether the save goes through. *)
Theorem attempt_takes_one_slot env o (path tgt : string)
    (before : list Entry) (entry : Entry) (after : list Entry) s :
  1 <= requests_per_10s o ->
  let r := translate_entry env o path tgt before entry after s in
  let w := wait_for_rate_limit env o s in
  if cap_hit o s || negb (selected o entry) then
    request_times (final r) = request_times s
    /\ calls (final r) = calls s
    /\ attempts (events r) = []
  else
    result w = Ok tt
    /\ request_times (final w) = kept_times env o s ++ [now (final w)]
    /\ length (request_times (final w)) = S (length (kept_times env o s))
    /\ kept_times env o s `sublist_of` request_times s
    /\ Forall (fun t => within_10s (now (final w)) t = true)
         (kept_times env o s)
    /\ (exists entry', result r = Ok (Some entry'))
    /\ request_times (final r) = request_times (final w)
    /\ calls (final r) = S (calls s)
    /\ attempts (events w) = []
    /\ exists rest,
         events r = events w
           ++ EvTranslate path (msgid entry) (source_language o) tgt :: rest
         /\ attempts rest = [].
Proof.
  intros Hmax r w. subst r. rewrite translate_entry_eq.
  destruct (cap_hit o s) eqn:Hcap; cbn [orb]; [done|].
  destruct (selected o entry) eqn:Hsel; cbn [negb]; [|done].
  destruct (wait_for_rate_limit_frame env o s) as (Hc & Hd & Hk & Hev).
  destruct (wait_events_silent _ Hev) as [_ Hatt].
  pose proof (wait_never_raises env o s Hmax) as Hok.
  destruct (wait_for_rate_limit_appends env o s tt Hok) as (Happ & Hsub & Hin).
  cbv zeta. fold w in Hc, Hd, Hk, Hev, Hatt, Hok, Happ, Hsub, Hin |- *.
  clearbody w. rewrite Hok. simpl_state.
  rewrite try_translate_eq, Hk. cbv zeta.
  split; [done|]. split; [done|].
  split; [by rewrite Happ, length_app, Nat.add_1_r|].
  split; [done|]. split; [done|].
  destruct (translate_string env _ _ _ _) as [tr|err]; simpl_state;
    (split; [eauto|]); (split; [done|]); (split; [done|]);
    (split; [done|]); eexists; (split; [reflexivity|]).
  - by destruct (save_error env _ _ _) as [[]|].
  - done.
Qed.

End LoopBody.

Lemma translation_error_is_local_witness :
  let o := options None 2 in
  let w := wait_for_rate_limit failing_env o fresh_state in
  let r := translate_entry failing_env o demo_path "fr" [] (entry "Hello" "")
             [entry "Bye" ""] fresh_state in
  let rest := translate_entries failing_env o demo_path "fr"
                ([] ++ [entry "Hello" ""]) [entry "Bye" ""] (final r) in
  result r = Ok (Some (entry "Hello" ""))
  /\ events r
     = events w
       ++ [EvTranslate demo_path "Hello" "en" "fr";
           EvError (ErrorTranslating (str_take 50 "Hello") "provider down")]
  /\ (String.length (str_take 50 "Hello") <= 50)%nat
  /\ translated_count (final r) = 0
  /\ disk (final r) = ∅
  /\ saves (events r) = []
  /\ cap_hit o (final r) = false
  /\ translate_entries failing_env o demo_path "fr" []
       [entry "Hello" ""; entry "Bye" ""] fresh_state
     = {| result := result rest; final := final rest;
          events := events r ++ events rest |}.
Proof.
  apply (translation_error_is_local failing_env (options None 2) demo_path
           "fr" [] (entry "Hello" "") [entry "Bye" ""] fresh_state
           "provider down"); reflexivity.
Defined.

Lemma set_fuzzy_flag_witness :
  let o := {| locale := []; skip_translated := false; set_fuzzy := true;
              source_language := "en"; limit_translations := None;
              requests_per_10s := 2 |} in
  let r := translate_entry demo_env o demo_path "fr" [] (entry "Hello" "")
             [] fresh_state in
  let entry' := {| msgid := "Hello"; msgstr := "fr:Hello"; flags := ["fuzzy"];
                   obsolete := false; msgstr_plural := [] |} in
  (set_fuzzy o = false -> flags entry' = flags (entry "Hello" ""))
  /\ (forall translation,
        cap_hit o fresh_state = false ->
        selected o (entry "Hello" "") = true ->
        result (wait_for_rate_limit demo_env o fresh_state) = Ok tt ->
        translate_string demo_env (calls fresh_state) "Hello" "en" "fr"
          = inl translation ->
        msgstr entry' = translation
        /\ (set_fuzzy o = true ->
            flags entry' = flags (entry "Hello" "") ++ ["fuzzy"]
            /\ fuzzy entry' = true)
        /\ translated_count (final r) = translated_count fresh_state + 1
        /\ saves (events r) = [(demo_path, [] ++ entry' :: [])]
        /\ disk (final r) !! demo_path
           = Some (file_after
                     (save_error demo_env (S (calls fresh_state)) demo_path
                        ([] ++ entry' :: []))
                     ([] ++ entry' :: []))
        /\ (save_error demo_env (S (calls fresh_state)) demo_path
              ([] ++ entry' :: []) = None ->
            disk (final r) !! demo_path = Some ([] ++ entry' :: [])))
  /\ (translated_count (final r) = translated_count fresh_state ->
      entry' = entry "Hello" "").
Proof.
  intros o r entry'.
  apply (set_fuzzy_flag demo_env o demo_path "fr" [] (entry "Hello" "") []
           fresh_state entry').
  reflexivity.
Defined.

(** C10, counterexample.  With a rate of zero the first entry that is
    selected makes the rate limiter raise: no timestamp is recorded and
    the provider is not called.  And a timestamp does not stay for ever:
    the attempt of eleven seconds ago, which failed, is pruned by the next
    call of the rate limiter. *)
Lemma attempt_without_slot :
  (let r := translate_entry demo_env (options None 0) demo_path "fr" []
              (entry "Hello" "") [] fresh_state in
   selected (options None 0) (entry "Hello" "") = true
   /\ result r = Raise IndexError
   /\ request_times (final r) = []
   /\ attempts (events r) = [])
  /\ (let o := options None 2 in
      let first := translate_entry slow_failing_env o demo_path "fr" []
                     (entry "Hello" "") [entry "Bye" ""] fresh_state in
      let both := translate_entries slow_failing_env o demo_path "fr" []
                    [entry "Hello" ""; entry "Bye" ""] fresh_state in
      request_times (final first) = [11%Q]
      /\ attempts (events both) = ["Hello"; "Bye"]
      /\ saves (events both) = []
      /\ request_times (final both) = [22%Q]).
Proof. vm_compute. auto 10. Qed.

Lemma attempt_takes_one_slot_witness :
  let o := options None 2 in
  let s := with_request_times [5%Q] (with_clock 6%Q 0 fresh_state) in
  let r := translate_entry failing_env o demo_path "fr" [] (entry "Hello" "")
             [] s in
  let w := wait_for_rate_limit failing_env o s in
  result w = Ok tt
  /\ request_times (final w) = [5%Q] ++ [now (final w)]
  /\ length (request_times (final w)) = S (length [5%Q])
  /\ [5%Q] `sublist_of` request_times s
  /\ Forall (fun t => within_10s (now (final w)) t = true) [5%Q]
  /\ (exists entry', result r = Ok (Some entry'))
  /\ request_times (final r) = request_times (final w)
  /\ calls (final r) = S (calls s)
  /\ attempts (events w) = []
  /\ exists rest,
       events r = events w ++ EvTranslate demo_path "Hello" "en" "fr" :: rest
       /\ attempts rest = [].
Proof.
  assert (Hrate : 1 <= requests_per_10s (options None 2)) by (simpl; lia).
  exact (attempt_takes_one_slot failing_env (options None 2) demo_path "fr" []
           (entry "Hello" "") []
           (with_request_times [5%Q] (with_clock 6%Q 0 fresh_state)) Hrate).
Defined.

(** Under a rate of one, the attempt that failed a second ago is on
    record when the next entry is attempted, and makes it wait. *)
Example failed_attempt_counts :
  let r := translate_entries failing_env (options None 1) demo_path "fr" []
             [entry "Hello" ""; entry "Bye" ""] fresh_state in
  events r
  = [EvTranslate demo_path "Hello" "en" "fr";
     EvError (ErrorTranslating "Hello" "provider down");
     EvInfo (RateLimitWait 9%Q); EvSleep 9%Q;
     EvTranslate demo_path "Bye" "en" "fr";
     EvError (ErrorTranslating "Bye" "provider down")]
  /\ request_times (final r) = [12%Q].
Proof. vm_compute. auto. Qed.

(** ** Configuration *)

Section Configuration.
Context {time : Type} {arith : TimeArith time}.
Implicit Types (env : Env time) (o : Options) (s : State time).

(** C9.  With internationalisation off or no locale path configured,
    [handle] raises [AssertionError] right after [set_options]: nothing is
    logged, walked, loaded, translated or saved, and the clock is not
    read. *)
Theorem handle_refuses_without_configuration env o s :
  USE_I18N env = false \/ LOCALE_PATHS env = [] ->
  let r := handle env o s in
  (exists msg, result r = Raise (AssertionError msg))
  /\ events r = []
  /\ final r = final (set_options s)
  /\ disk (final r) = disk s
  /\ calls (final r) = calls s
  /\ reads (final r) = reads s.
Proof.
  intros H. unfold handle, bind. cbn [set_options].
  destruct (USE_I18N env) eqn:Hi18n.
  - destruct H as [H|H]; [discriminate|]. rewrite H. cbn. eauto 10.
  - cbn. eauto 10.
Qed.

End Configuration.

Lemma handle_refuses_without_configuration_witness :
  let r := handle no_i18n_env (options None 10) fresh_state in
  (exists msg, result r = Raise (AssertionError msg))
  /\ events r = []
  /\ final r = final (set_options fresh_state)
  /\ disk (final r) = ∅
  /\ calls (final r) = 0%nat
  /\ reads (final r) = 0%nat.
Proof.
  apply (handle_refuses_without_configuration no_i18n_env (options None 10)
           fresh_state).
  left. reflexivity.
Defined.

(** ** The loops *)

Section Loops.
Context {time : Type} {arith : TimeArith time}.
Implicit Types (env : Env time) (o : Options) (s : State time).

Lemma translate_entries_cons env o path tgt before entry after s :
  translate_entries env o path tgt before (entry :: after) s =
  let r := translate_entry env o path tgt before entry after s in
  match result r with
  | Ok (Some entry') =>
    let rest := translate_entries env o path tgt (before ++ [entry']) after
                  (final r) in
    {| result := result rest; final := final rest;
       events := events r ++ events rest |}
  | Ok None =>
    {| result := Ok (false, before ++ entry :: after); final := final r;
       events := events r |}
  | Raise e => {| result := Raise e; final := final r; events := events r |}
  end.
Proof.
  cbn [translate_entries]. cbv zeta.
  destruct (result (translate_entry env o path tgt before entry after s))
    as [[entry'|]|e] eqn:Hr.
  - by rewrite (bind_Ok _ _ _ _ Hr).
  - rewrite (bind_Ok _ _ _ _ Hr). cbn. by rewrite app_nil_r.
  - by rewrite (bind_Raise _ _ _ _ Hr).
Qed.

Lemma for_cons {A} (x : A) (xs : list A) (body : A -> M time Flow) s :
  for_ (x :: xs) body s =
  let r := body x s in
  match result r with
  | Ok Continue =>
    let rest := for_ xs body (final r) in
    {| result := result rest; final := final rest;
       events := events r ++ events rest |}
  | Ok Return => {| result := Ok Return; final := final r; events := events r |}
  | Raise e => {| result := Raise e; final := final r; events := events r |}
  end.
Proof.
  cbn [for_]. cbv zeta.
  destruct (result (body x s)) as [[]|e] eqn:Hr.
  - by rewrite (bind_Ok _ _ _ _ Hr).
  - rewrite (bind_Ok _ _ _ _ Hr). cbn. by rewrite app_nil_r.
  - by rewrite (bind_Raise _ _ _ _ Hr).
Qed.

(** The five ways an iteration of [for entry in po] can go. *)
Lemma translate_entry_cases env o path tgt before entry after s :
  let r := translate_entry env o path tgt before entry after s in
  let w := wait_for_rate_limit env o s in
  let call := EvTranslate path (msgid entry) (source_language o) tgt in
  (cap_hit o s = true
   /\ r = {| result := Ok None; final := s;
             events := [EvInfo (LimitReached (limit_translations o))] |})
  \/ (cap_hit o s = false /\ selected o entry = false
      /\ r = {| result := Ok (Some entry); final := s; events := [] |})
  \/ (cap_hit o s = false /\ selected o entry = true
      /\ exists e, result w = Raise e
         /\ r = {| result := Raise e; final := final w; events := events w |})
  \/ (cap_hit o s = false /\ selected o entry = true /\ result w = Ok tt
      /\ exists e,
         translate_string env (calls s) (msgid entry) (source_language o) tgt
           = inr e
         /\ r = {| result := Ok (Some entry);
                   final := with_calls (S (calls s)) (final w);
                   events := events w
                     ++ [call; EvError (ErrorTranslating
                                          (str_take 50 (msgid entry)) e)] |})
  \/ (cap_hit o s = false /\ selected o entry = true /\ result w = Ok tt
      /\ exists translation,
         translate_string env (calls s) (msgid entry) (source_language o) tgt
           = inl translation
         /\ let entry' := set_translation o translation entry in
            let po' := before ++ entry' :: after in
            let failure := save_error env (S (calls s)) path po' in
            r = {| result := Ok (Some entry');
                   final := with_disk
                              (<[path := file_after failure po']> (disk s))
                              (with_translated_count (translated_count s + 1)
                                 (with_calls (S (calls s)) (final w)));
                   events := events w
                     ++ [call; EvSave path po';
                         save_report (translated_count s + 1) entry'
                           failure] |}).
Proof.
  intros r w call. subst r. rewrite translate_entry_eq.
  destruct (cap_hit o s); [by left|]. right.
  destruct (selected o entry); [|by left]. right.
  destruct (wait_for_rate_limit_frame env o s) as (Hc & Hd & Hk & _).
  cbv zeta. fold w in Hc, Hd, Hk |- *. clearbody w.
  destruct (result w) as [[]|e]; [right|left; eauto].
  rewrite try_translate_eq, Hk, Hc, Hd. cbv zeta.
  destruct (translate_string env _ _ _ _) as [tr|err]; [right|left];
    (do 3 (split; [done|])); eauto.
Qed.

Lemma saves_report count entry' failure t :
  saves (time := time) (save_report count entry' failure :: t) = saves t.
Proof. by destruct failure as [[]|]. Qed.

Lemma attempts_report count entry' failure t :
  attempts (time := time) (save_report count entry' failure :: t)
  = attempts t.
Proof. by destruct failure as [[]|]. Qed.

Lemma provider_calls_report count entry' failure t :
  provider_calls (time := time) (save_report count entry' failure :: t)
  = provider_calls t.
Proof. by destruct failure as [[]|]. Qed.

(** ** Which entries are attempted *)

Lemma selected_rule o e :
  selected o e = true
  <-> nonempty (strip (msgid e)) = true
      /\ skip_translated o && translated e = false.
Proof.
  unfold selected. rewrite andb_true_iff, negb_true_iff. tauto.
Qed.

Lemma filter_selected_perm o (po1 po2 : list Entry) :
  po1 ≡ₚ po2 ->
  length (List.filter (selected o) po1) = length (List.filter (selected o) po2).
Proof.
  induction 1 as [|e l1 l2 _ IH|e1 e2 l|l1 l2 l3 _ IH1 _ IH2]; cbn.
  - done.
  - destruct (selected o e); cbn; lia.
  - destruct (selected o e1), (selected o e2); cbn; lia.
  - lia.
Qed.

(** The provider calls of the loop over a catalog: one for each entry
    that satisfies the rule, in order, with the catalog's path and the
    target language the loop was given; all of them if the loop gets to
    its end. *)
Lemma translate_entries_calls env o path tgt po : forall before s,
  let r := translate_entries env o path tgt before po s in
  let sent := fun e => (path, msgid e, source_language o, tgt) in
  provider_calls (events r) `prefix_of` (sent <$> List.filter (selected o) po)
  /\ match result r with
     | Ok (true, _) =>
       provider_calls (events r) = sent <$> List.filter (selected o) po
     | _ => True
     end.
Proof.
  induction po as [|entry after IH]; intros before s.
  { cbn. split; [apply prefix_nil | done]. }
  cbv zeta. rewrite translate_entries_cons.
  pose proof (wait_events_no_call _
                (proj2 (proj2 (proj2 (wait_for_rate_limit_frame env o s)))))
    as Hw.
  destruct (translate_entry_cases env o path tgt before entry after s)
    as [(_ & Hr) | [(_ & Hsel & Hr) | [(_ & Hsel & e & _ & Hr)
       | [(_ & Hsel & _ & e & _ & Hr) | (_ & Hsel & _ & tr & _ & Hr)]]]];
    cbv zeta in Hr; rewrite Hr; cbn [result final events List.filter];
    rewrite ?Hsel.
  - split; [apply prefix_nil | done].
  - apply IH.
  - rewrite Hw. split; [apply prefix_nil | done].
  - destruct (IH (before ++ [entry]) (with_calls (S (calls s))
                    (final (wait_for_rate_limit env o s)))) as [Hp He].
    rewrite !provider_calls_app, Hw. cbn [app fmap list_fmap].
    change (provider_calls [?a; ?b]) with [(path, msgid entry,
                                            source_language o, tgt)].
    split; [apply prefix_cons, Hp|].
    revert He. destruct (result _) as [[[] ?]|]; intros He;
      [by f_equal|done..].
  - match goal with |- context [translate_entries _ _ _ _ ?b _ ?s'] =>
      destruct (IH b s') as [Hp He] end.
    rewrite !provider_calls_app, Hw. cbn [app fmap list_fmap].
    match goal with |- context [provider_calls [?a; ?b; ?c]] =>
      replace (provider_calls [a; b; c])
        with [(path, msgid entry, source_language o, tgt)]
        by (cbn; by destruct (save_error env _ _ _) as [[]|]) end.
    split; [apply prefix_cons, Hp|].
    revert He. destruct (result _) as [[[] ?]|]; intros He;
      [by f_equal|done..].
Qed.

Lemma attempts_of_calls (t : list (Event time)) :
  attempts t = (fun c => c.1.1.2) <$> provider_calls t.
Proof.
  unfold attempts, provider_calls.
  induction t as [|[] t IH]; cbn; try done. by rewrite IH.
Qed.

Lemma translate_entries_attempts env o path tgt po before s :
  let r := translate_entries env o path tgt before po s in
  attempts (events r) `prefix_of` (msgid <$> List.filter (selected o) po)
  /\ match result r with
     | Ok (true, _) =>
       attempts (events r) = msgid <$> List.filter (selected o) po
     | _ => True
     end.
Proof.
  cbv zeta.
  destruct (translate_entries_calls env o path tgt po before s) as [Hp He].
  rewrite attempts_of_calls.
  assert (Hmap : (fun c : string * string * string * string => c.1.1.2)
                 <$> ((fun e => (path, msgid e, source_language o, tgt))
                      <$> List.filter (selected o) po)
                 = msgid <$> List.filter (selected o) po).
  { rewrite <- list_fmap_compose. done. }
  split.
  - rewrite <- Hmap. destruct Hp as [k ->]. rewrite fmap_app.
    by apply prefix_app_r.
  - destruct (result _) as [[[] ?]|]; try done. by rewrite He, Hmap.
Qed.

(** C4, amended.  In a catalog that the loop processes to its end
    (the cap is not reached in it and the rate limiter does not raise) the
    source texts sent to the provider are exactly those of the entries
    that satisfy the rule, in catalog order, so their number is the number
    of such entries, which does not depend on the order of the catalog.
    In every case the texts sent are an initial part of those, and none of
    them is empty once stripped.  The rule: the stripped source text is
    not empty, and not both [skip_translated] is set and the entry is
    translated. *)
Theorem selected_entries_attempted env o
    (path tgt : string) (before po : list Entry) s :
  let r := translate_entries env o path tgt before po s in
  attempts (events r) `prefix_of` (msgid <$> List.filter (selected o) po)
  /\ match result r with
     | Ok (true, _) =>
       attempts (events r) = msgid <$> List.filter (selected o) po
       /\ length (attempts (events r)) = length (List.filter (selected o) po)
     | _ => True
     end
  /\ Forall (fun text => nonempty (strip text) = true) (attempts (events r))
  /\ (forall e, selected o e = true
                <-> nonempty (strip (msgid e)) = true
                    /\ skip_translated o && translated e = false)
  /\ (forall po2, po2 ≡ₚ po ->
        length (List.filter (selected o) po2)
        = length (List.filter (selected o) po)).
Proof.
  intros r.
  destruct (translate_entries_attempts env o path tgt po before s)
    as [Hp He].
  fold r in Hp, He. split; [exact Hp|]. split; [|split; [|split]].
  - destruct (result r) as [[[] ?]|]; try done.
    split; [done|]. by rewrite He, length_fmap.
  - destruct Hp as [k Hk]. apply Forall_forall. intros text Hin.
    assert (Hin' : text ∈ msgid <$> List.filter (selected o) po).
    { rewrite Hk. apply elem_of_app. by left. }
    apply list_elem_of_fmap in Hin' as (e & -> & He').
    apply list_elem_of_In, List.filter_In in He' as [_ He'].
    apply selected_rule in He' as [He' _]. exact He'.
  - apply selected_rule.
  - intros po2. apply filter_selected_perm.
Qed.

(** ** One file of the walk *)

Lemma handle_file_eq env o root file s :
  handle_file env o root file s =
  let target_language := basename (dirname root) in
  if cap_hit o s then
    {| result := Ok Return; final := s;
       events := [EvInfo (LimitReachedStopping (limit_translations o))] |}
  else if negb (endswith file ".po") then
    {| result := Ok Continue; final := s; events := [] |}
  else if bool_decide (locale o ≠ [])
          && bool_decide (target_language ∉ locale o) then
    {| result := Ok Continue; final := s;
       events := [EvInfo (SkippingLocale target_language)] |}
  else
    let f := translate_file env o root file target_language s in
    {| result := match result f with
                 | Ok true => Ok Continue
                 | Ok false => Ok Return
                 | Raise e => Raise e
                 end;
       final := final f; events := events f |}.
Proof.
  unfold handle_file, bind, limit_reached. cbv zeta.
  destruct (cap_hit o s); [reflexivity|].
  destruct (endswith file ".po"); [|reflexivity]. cbn [negb].
  destruct (bool_decide (locale o ≠ []) && _); [reflexivity|].
  destruct (translate_file env o root file _ s) as [[[]|e] s1 t1];
    cbn; rewrite ?app_nil_r; reflexivity.
Qed.

Lemma translate_file_eq env o root file tgt s :
  translate_file env o root file tgt s =
  let path := join root file in
  match disk s !! path with
  | Some po =>
    let l := translate_entries env o path tgt [] po s in
    {| result := match result l with
                 | Ok r => Ok r.1
                 | Raise e => Raise e
                 end;
       final := final l;
       events := EvInfo (FillingUp tgt) :: EvLoad path :: events l |}
  | None =>
    {| result := Raise (OSError path); final := s;
       events := [EvInfo (FillingUp tgt); EvLoad path] |}
  end.
Proof.
  unfold translate_file, bind, logger_info, emit, polib_pofile. cbv zeta.
  destruct (disk s !! join root file) as [po|]; [|reflexivity].
  destruct (translate_entries env o _ tgt [] po s) as [[[b po']|e] s1 t1];
    cbn; rewrite ?app_nil_r; reflexivity.
Qed.

(** C6.  A file ending in [.po] whose locale is not in a non-empty
    allow-list is passed over: the iteration performs one log record and
    nothing else, leaves the state as it is and raises nothing; unless the
    cap is reached the record reports the skipped locale and the loop goes
    on.  With an empty allow-list, or a locale in the list, and the cap not
    reached, the iteration is [translate_file] for that locale, which
    starts by loading the catalog. *)
Theorem locale_filter env o (root file : string) s :
  endswith file ".po" = true ->
  let tgt := basename (dirname root) in
  let r := handle_file env o root file s in
  let f := translate_file env o root file tgt s in
  (locale o <> [] /\ tgt ∉ locale o ->
     final r = s
     /\ (exists record, events r = [EvInfo record])
     /\ attempts (events r) = [] /\ saves (events r) = []
     /\ (cap_hit o s = false ->
         result r = Ok Continue
         /\ events r = [EvInfo (SkippingLocale tgt)]))
  /\ (locale o = [] \/ tgt ∈ locale o ->
      cap_hit o s = false ->
      events r = events f /\ final r = final f
      /\ exists rest,
           events r
           = EvInfo (FillingUp tgt) :: EvLoad (join root file) :: rest).
Proof.
  intros Hpo tgt r f. subst r. rewrite handle_file_eq. cbv zeta.
  fold tgt. rewrite Hpo. cbn [negb]. split.
  - intros [Hne Hnot].
    rewrite (bool_decide_eq_true_2 _ Hne), (bool_decide_eq_true_2 _ Hnot).
    cbn [andb]. destruct (cap_hit o s); simpl_state;
      (repeat split; eauto; discriminate).
  - intros Hall Hcap. rewrite Hcap.
    replace (bool_decide (locale o ≠ []) && bool_decide (tgt ∉ locale o))
      with false.
    + fold f. simpl_state. split; [done|]. split; [done|].
      subst f. rewrite translate_file_eq. cbv zeta.
      destruct (disk s !! join root file); simpl_state; eauto.
    + symmetry. apply andb_false_iff. destruct Hall as [Hempty|Hin].
      * left. apply bool_decide_eq_false. by intros [].
      * right. apply bool_decide_eq_false. by intros [].
Qed.

Lemma handle_directory_eq env o directory s :
  handle_directory env o directory s =
  if cap_hit o s then
    {| result := Ok Return; final := s;
       events := [EvInfo (LimitReachedStopping (limit_translations o))] |}
  else
    let l := for_ (walk env directory)
               (fun '(root, dirs, files) =>
                  for_ files (handle_file env o root)) s in
    {| result := result l; final := final l;
       events := EvWalk directory :: events l |}.
Proof.
  unfold handle_directory, os_walk, bind, limit_reached, emit, ret.
  destruct (cap_hit o s); [reflexivity|]. cbn [app].
  destruct (for_ _ _ s); reflexivity.
Qed.

Lemma handle_eq env o s :
  handle env o s =
  let s0 := with_request_times [] (with_translated_count 0 s) in
  if USE_I18N env then
    match LOCALE_PATHS env with
    | [] =>
      {| result := Raise (AssertionError
                            "locale paths is not configured properly");
         final := s0; events := [] |}
    | _ =>
      let l := for_ (LOCALE_PATHS env) (handle_directory env o) s0 in
      {| result := match result l with
                   | Ok _ => Ok tt
                   | Raise e => Raise e
                   end;
         final := final l;
         events := (if truthy_limit o
                    then [EvInfo (LimitSet (limit_translations o))]
                    else [])
                   ++ EvInfo (RateLimit (requests_per_10s o)) :: events l |}
    end
  else
    {| result := Raise (AssertionError "i18n framework is disabled");
       final := s0; events := [] |}.
Proof.
  unfold handle, bind, set_options, logger_info, emit, ret, raise.
  cbv zeta.
  destruct (USE_I18N env); [|reflexivity].
  destruct (LOCALE_PATHS env) as [|d ds]; [reflexivity|].
  destruct (truthy_limit o);
    destruct (for_ (d :: ds) (handle_directory env o) _) as [[f|e] s1 t1];
    cbn; rewrite ?app_nil_r; reflexivity.
Qed.

End Loops.

(** C4, counterexample.  With a cap of one, a catalog of two entries
    that both satisfy the rule sees one attempt only. *)
Lemma cap_cuts_attempts_short :
  let o := options (Some 1) 10 in
  let po := [entry "Hello" ""; entry "Bye" ""] in
  let r := handle demo_env o (with_disk {[demo_path := po]} fresh_state) in
  length (List.filter (selected o) po) = 2%nat
  /\ result r = Ok tt
  /\ attempts (events r) = ["Hello"].
Proof. vm_compute. auto. Qed.

Lemma locale_filter_witness :
  let o := {| locale := ["de"]; skip_translated := false; set_fuzzy := false;
              source_language := "en"; limit_translations := None;
              requests_per_10s := 10 |} in
  let s := with_disk {[demo_path := [entry "Hello" ""]]} fresh_state in
  let tgt := basename (dirname "locale/fr/LC_MESSAGES") in
  let r := handle_file demo_env o "locale/fr/LC_MESSAGES" "django.po" s in
  let f := translate_file demo_env o "locale/fr/LC_MESSAGES" "django.po"
             tgt s in
  (locale o <> [] /\ tgt ∉ locale o ->
     final r = s
     /\ (exists record, events r = [EvInfo record])
     /\ attempts (events r) = [] /\ saves (events r) = []
     /\ (cap_hit o s = false ->
         result r = Ok Continue
         /\ events r = [EvInfo (SkippingLocale tgt)]))
  /\ (locale o = [] \/ tgt ∈ locale o ->
      cap_hit o s = false ->
      events r = events f /\ final r = final f
      /\ exists rest,
           events r
           = EvInfo (FillingUp tgt)
             :: EvLoad (join "locale/fr/LC_MESSAGES" "django.po") :: rest).
Proof.
  intros o s tgt r f.
  apply (locale_filter demo_env o "locale/fr/LC_MESSAGES" "django.po" s).
  reflexivity.
Defined.

(** ** Properties that compose along a run

    [T s s' t] reads: a stretch of the run that starts in [s], ends in
    [s'] and performs [t] has the property.  A property that holds of the
    empty stretch and of two stretches in a row holds of the loops as soon
    as it holds of their bodies. *)

Section Transitions.
Context {time : Type} {arith : TimeArith time}.
Context (env : Env time) (o : Options)
  (T : State time -> State time -> list (Event time) -> Prop).
Hypothesis T_refl : forall s, T s s [].
Hypothesis T_trans : forall s1 s2 s3 t1 t2,
  T s1 s2 t1 -> T s2 s3 t2 -> T s1 s3 (t1 ++ t2).

Lemma translate_entries_T path tgt :
  (forall before e after s,
     let r := translate_entry env o path tgt before e after s in
     T s (final r) (events r)) ->
  forall po before s,
    let r := translate_entries env o path tgt before po s in
    T s (final r) (events r).
Proof.
  intros Hentry po. induction po as [|e after IH]; intros before s.
  { apply T_refl. }
  cbv zeta. rewrite translate_entries_cons. cbv zeta.
  pose proof (Hentry before e after s) as He. cbv zeta in He.
  destruct (result (translate_entry env o path tgt before e after s))
    as [[e'|]|x]; simpl_state; [|done..].
  eapply T_trans; [exact He|apply IH].
Qed.

Lemma for_T {A} (xs : list A) (body : A -> M time Flow) :
  (forall x s, x ∈ xs -> T s (final (body x s)) (events (body x s))) ->
  forall s, T s (final (for_ xs body s)) (events (for_ xs body s)).
Proof.
  induction xs as [|x xs IH]; intros Hbody s.
  { apply T_refl. }
  rewrite for_cons. cbv zeta.
  pose proof (Hbody x s (list_elem_of_here _ _)) as Hx.
  destruct (result (body x s)) as [[]|e]; simpl_state; [|done..].
  eapply T_trans; [exact Hx|]. apply IH.
  intros y s' Hy. apply Hbody. by apply list_elem_of_further.
Qed.

Hypothesis T_stop : forall s,
  cap_hit o s = true ->
  T s s [EvInfo (LimitReachedStopping (limit_translations o))].
Hypothesis T_progress : forall s ev,
  cap_hit o s = false -> is_progress ev = true -> T s s [ev].

Lemma handle_file_T root file :
  (forall before e after s,
     let r := translate_entry env o (join root file) (basename (dirname root))
                before e after s in
     T s (final r) (events r)) ->
  forall s,
    let r := handle_file env o root file s in
    T s (final r) (events r).
Proof.
  intros Hentry s. cbv zeta. rewrite handle_file_eq. cbv zeta.
  destruct (cap_hit o s) eqn:Hcap; [by apply T_stop|].
  destruct (negb (endswith file ".po")); [apply T_refl|].
  destruct (bool_decide (locale o ≠ []) && _); [by apply T_progress|].
  rewrite translate_file_eq. cbv zeta.
  destruct (disk s !! join root file) as [po|]; simpl_state.
  - apply (T_trans s s _ [_] (_ :: _)); [by apply T_progress|].
    apply (T_trans s s _ [_] _); [by apply T_progress|].
    by apply translate_entries_T.
  - apply (T_trans s s _ [_] [_]); by apply T_progress.
Qed.

Hypothesis T_entry : forall path tgt before e after s,
  let r := translate_entry env o path tgt before e after s in
  T s (final r) (events r).

Lemma handle_directory_T directory s :
  let r := handle_directory env o directory s in
  T s (final r) (events r).
Proof.
  cbv zeta. rewrite handle_directory_eq. cbv zeta.
  destruct (cap_hit o s) eqn:Hcap; simpl_state; [by apply T_stop|].
  apply (T_trans s s _ [_] _); [by apply T_progress|].
  apply for_T. intros [[root dirs] files] s1 _.
  apply for_T. intros file s2 _.
  apply handle_file_T. intros. apply T_entry.
Qed.

Lemma handle_loop_T s :
  let r := for_ (LOCALE_PATHS env) (handle_directory env o) s in
  T s (final r) (events r).
Proof. apply for_T. intros d s' _. apply handle_directory_T. Qed.
End Transitions.

(** ** Paths *)

Lemma append_nil_l (b : string) : "" +:+ b = b.
Proof. reflexivity. Qed.

Lemma append_cons (c : ascii) (a b : string) :
  String c a +:+ b = String c (a +:+ b).
Proof. reflexivity. Qed.

Lemma rsplit_sep_no_sep b : no_sep b = true -> rsplit_sep b = ("", b).
Proof.
  induction b as [|c b IH]; [done|]. cbn [no_sep rsplit_sep].
  intros [Hc Hb]%andb_true_iff. rewrite (IH Hb).
  apply negb_true_iff in Hc. by rewrite Hc.
Qed.

Lemma rsplit_sep_last a b :
  no_sep b = true -> rsplit_sep (a +:+ String "/" b) = (a +:+ "/", b).
Proof.
  intros Hb. induction a as [|c a IH].
  - rewrite !append_nil_l. cbn [rsplit_sep]. by rewrite (rsplit_sep_no_sep b Hb).
  - rewrite !append_cons. cbn [rsplit_sep]. rewrite IH.
    destruct a; reflexivity.
Qed.

Lemma rstrip_with_snoc f a c :
  f c = true ->
  rstrip_with f (a +:+ String c "") = rstrip_with f a.
Proof.
  intros Hc. induction a as [|x a IH].
  - rewrite append_nil_l. cbn. by rewrite Hc.
  - rewrite append_cons. cbn [rstrip_with]. by rewrite IH.
Qed.

Lemma rstrip_with_id a :
  endswith a "/" = false -> rstrip_with is_sep a = a.
Proof.
  induction a as [|x a IH]; [done|]. cbn [endswith rstrip_with].
  intros [Hx Ha]%orb_false_iff. rewrite (IH Ha).
  destruct a as [|y a]; [|done].
  apply bool_decide_eq_false in Hx.
  unfold is_sep. rewrite bool_decide_eq_false_2; [done|].
  intros ->. by apply Hx.
Qed.

Lemma lstrip_with_nonempty a b :
  nonempty a = true -> endswith a "/" = false ->
  nonempty (lstrip_with is_sep (a +:+ b)) = true.
Proof.
  induction a as [|x a IH]; [done|]. intros _. cbn [endswith].
  intros [Hx Ha]%orb_false_iff. rewrite append_cons. cbn [lstrip_with].
  destruct (is_sep x) eqn:Hs; [|done].
  apply IH; [|exact Ha]. destruct a; [|done].
  apply bool_decide_eq_true in Hs. subst x.
  by apply bool_decide_eq_false in Hx.
Qed.

Lemma startswith_no_sep b : no_sep b = true -> startswith b "/" = false.
Proof.
  destruct b as [|c b]; [done|]. cbn.
  intros [Hc _]%andb_true_iff. apply negb_true_iff in Hc.
  unfold is_sep in Hc. by rewrite Hc.
Qed.

Lemma endswith_no_sep b : no_sep b = true -> endswith b "/" = false.
Proof.
  induction b as [|c b IH]; [done|]. cbn [no_sep endswith].
  intros [Hc Hb]%andb_true_iff. rewrite (IH Hb), orb_false_r.
  apply bool_decide_eq_false. intros [= -> ->]. done.
Qed.

Lemma endswith_append a b :
  nonempty b = true -> endswith (a +:+ b) "/" = endswith b "/".
Proof.
  intros Hb. induction a as [|c a IH]; [done|].
  rewrite append_cons. cbn [endswith]. rewrite IH.
  rewrite bool_decide_eq_false_2; [done|].
  intros [= -> Ha]. destruct a, b; done.
Qed.

Lemma endswith_sep_inv a :
  endswith a "/" = true -> exists a', a = a' +:+ "/".
Proof.
  induction a as [|c a IH]; [done|]. cbn [endswith].
  intros [H|H]%orb_true_iff.
  - apply bool_decide_eq_true in H. exists "". by rewrite H.
  - destruct (IH H) as [a' ->]. by exists (String c a').
Qed.

(** The directory of a file joined to its directory is that directory,
    for a directory path that does not end in a slash. *)
Lemma dirname_join root file :
  no_sep file = true -> endswith root "/" = false ->
  dirname (join root file) = root.
Proof.
  intros Hf Hr. unfold join. rewrite (startswith_no_sep file Hf), Hr.
  destruct root as [|c root].
  - cbn [nonempty negb orb]. rewrite append_nil_l. unfold dirname.
    by rewrite (rsplit_sep_no_sep file Hf).
  - cbn [nonempty negb orb]. unfold dirname.
    change ("/" +:+ file) with (String "/" file).
    rewrite (rsplit_sep_last (String c root) file Hf). cbn [fst].
    rewrite (lstrip_with_nonempty (String c root) "/" eq_refl Hr).
    rewrite append_cons. cbn [nonempty andb]. rewrite <- append_cons.
    rewrite rstrip_with_snoc by done. by apply rstrip_with_id.
Qed.

Lemma basename_join top loc :
  nonempty loc = true -> no_sep loc = true ->
  basename (join top loc) = loc
  /\ endswith (join top loc) "/" = false.
Proof.
  intros Hne Hl. unfold join. rewrite (startswith_no_sep loc Hl).
  destruct (negb (nonempty top) || endswith top "/") eqn:Htop.
  - split.
    + destruct top as [|c top].
      * rewrite append_nil_l. unfold basename.
        by rewrite (rsplit_sep_no_sep loc Hl).
      * cbn [nonempty negb orb] in Htop.
        destruct (endswith_sep_inv _ Htop) as [a' ->].
        unfold basename.
        replace ((a' +:+ "/") +:+ loc) with (a' +:+ String "/" loc).
        { by rewrite (rsplit_sep_last a' loc Hl). }
        clear. induction a' as [|x a' IH]; [done|].
        rewrite !append_cons. by rewrite IH.
    + rewrite endswith_append by done. by apply endswith_no_sep.
  - split.
    + unfold basename.
      change ("/" +:+ loc) with (String "/" loc).
      by rewrite (rsplit_sep_last top loc Hl).
    + rewrite endswith_append by done.
      rewrite (endswith_append "/" loc Hne). by apply endswith_no_sep.
Qed.

Section TargetLocale.
Context {time : Type} {arith : TimeArith time}.
Implicit Types (env : Env time) (o : Options) (s : State time).

(** C7, amended.  While a catalog of an allowed locale is handled, the
    provider is called once for each entry that satisfies the selection
    rule, in catalog order (for all of them if the file is processed to
    its end), each time for the catalog [join root file] and with the name
    of the directory above [root] as target language, [root] being the
    directory in which the walk found the file.  Unless [root] ends in a
    slash, that directory is the one two levels above the file; for a file
    at [<top>/<locale>/LC_MESSAGES/<file>] it is [<locale>]. *)
Theorem target_locale_from_path env o (root file : string) s
    (po : list Entry) :
  endswith file ".po" = true ->
  locale o = [] \/ basename (dirname root) ∈ locale o ->
  disk s !! join root file = Some po ->
  let r := handle_file env o root file s in
  let tgt := basename (dirname root) in
  let sent := fun e => (join root file, msgid e, source_language o, tgt) in
  provider_calls (events r) `prefix_of` (sent <$> List.filter (selected o) po)
  /\ (result r = Ok Continue ->
      provider_calls (events r) = sent <$> List.filter (selected o) po)
  /\ (no_sep file = true -> endswith root "/" = false ->
      tgt = basename (dirname (dirname (join root file))))
  /\ (forall top loc,
        nonempty loc = true -> no_sep loc = true ->
        root = join (join top loc) "LC_MESSAGES" ->
        tgt = loc).
Proof.
  intros Hpo Hloc Hdisk r tgt sent.
  assert (Hcalls :
    provider_calls (events r) `prefix_of` (sent <$> List.filter (selected o) po)
    /\ (result r = Ok Continue ->
        provider_calls (events r) = sent <$> List.filter (selected o) po)).
  { subst r. rewrite handle_file_eq. cbv zeta. fold tgt.
    destruct (cap_hit o s); [split; [apply prefix_nil|done]|].
    rewrite Hpo. cbn [negb].
    replace (bool_decide (locale o ≠ []) && bool_decide (tgt ∉ locale o))
      with false.
    2:{ symmetry. apply andb_false_iff. destruct Hloc as [Hempty|Hin].
        - left. apply bool_decide_eq_false. by intros [].
        - right. apply bool_decide_eq_false. by intros []. }
    rewrite translate_file_eq. cbv zeta. rewrite Hdisk. simpl_state.
    destruct (translate_entries_calls env o (join root file) tgt po [] s)
      as [Hp He].
    change (provider_calls (EvInfo ?a :: EvLoad ?b :: ?t))
      with (provider_calls t).
    split; [exact Hp|].
    destruct (result (translate_entries _ _ _ _ _ _ _)) as [[[] ?]|];
      done. }
  destruct Hcalls as [Hp He]. split; [exact Hp|]. split; [exact He|]. split.
  - intros Hf Hr. subst tgt. by rewrite (dirname_join root file Hf Hr).
  - intros top loc Hne Hl ->. subst tgt.
    destruct (basename_join top loc Hne Hl) as [Hb Hend].
    by rewrite (dirname_join (join top loc) "LC_MESSAGES" eq_refl Hend).
Qed.

End TargetLocale.

(** C7, counterexample.  A catalog that lies directly in a configured
    directory given with a trailing slash: the walk reports it in the
    directory [locale/], the target language sent to the provider is
    [locale], the name of the directory that holds the file, while the
    directory two levels above the file has the empty name. *)
Lemma target_locale_of_flat_catalog :
  let s := with_disk {["locale/top.po" := [entry "Hello" ""]]} fresh_state in
  let r := handle flat_env (options None 10) s in
  ("locale/", @nil string, ["top.po"]) ∈ walk flat_env "locale/"
  /\ join "locale/" "top.po" = "locale/top.po"
  /\ provider_calls (events r) = [("locale/top.po", "Hello", "en", "locale")]
  /\ basename (dirname "locale/top.po") = "locale"
  /\ basename (dirname (dirname "locale/top.po")) = "".
Proof. split; [apply list_elem_of_here|]. vm_compute. auto. Qed.

Lemma target_locale_from_path_witness :
  let o := options None 10 in
  let root := "locale/fr/LC_MESSAGES" in
  let po := [entry "Hello" ""; entry "" ""; entry "Bye" ""] in
  let s := with_disk {[demo_path := po]} fresh_state in
  let r := handle_file demo_env o root "django.po" s in
  let sent := fun e => (join root "django.po", msgid e, "en", "fr") in
  provider_calls (events r) `prefix_of` (sent <$> List.filter (selected o) po)
  /\ (result r = Ok Continue ->
      provider_calls (events r) = sent <$> List.filter (selected o) po)
  /\ (no_sep "django.po" = true -> endswith root "/" = false ->
      "fr" = basename (dirname (dirname (join root "django.po"))))
  /\ (forall top loc,
        nonempty loc = true -> no_sep loc = true ->
        root = join (join top loc) "LC_MESSAGES" ->
        "fr" = loc).
Proof.
  assert (Hloc : locale (options None 10) = []
                 \/ basename (dirname "locale/fr/LC_MESSAGES")
                    ∈ locale (options None 10)) by (by left).
  exact (target_locale_from_path demo_env (options None 10)
           "locale/fr/LC_MESSAGES" "django.po"
           (with_disk {[demo_path := [entry "Hello" ""; entry "" "";
                                      entry "Bye" ""]]} fresh_state)
           [entry "Hello" ""; entry "" ""; entry "Bye" ""]
           eq_refl Hloc eq_refl).
Defined.

(** ** The translation cap *)

Section Cap.
Context {time : Type} {arith : TimeArith time}.
Implicit Types (env : Env time) (o : Options) (s : State time).
Implicit Types (t : list (Event time)).

Lemma cap_hit_Some o L s :
  limit_translations o = Some L -> 1 <= L ->
  cap_hit o s = (L <=? translated_count s).
Proof.
  intros HL Hpos. unfold cap_hit. rewrite HL.
  replace (L =? 0) with false; [done|]. symmetry. apply Z.eqb_neq. lia.
Qed.

Lemma cap_hit_uncapped o s : cap_hit (uncapped o) s = false.
Proof. reflexivity. Qed.

Lemma quiet_app t1 t2 : quiet (t1 ++ t2) = quiet t1 && quiet t2.
Proof. apply forallb_app. Qed.

Lemma quiet_saves t : quiet t = true -> saves t = [] /\ attempts t = [].
Proof.
  induction t as [|[] t IH]; cbn; intros H; try discriminate; auto.
Qed.

Lemma seals_app_l L t1 t2 : seals L t2 -> seals L (t1 ++ t2).
Proof.
  intros (pre & path & po & report & logs & -> & Hr & Hq).
  exists (t1 ++ pre), path, po, report, logs. by rewrite <- app_assoc.
Qed.

Lemma seals_app_quiet L t1 t2 :
  seals L t1 -> quiet t2 = true -> seals L (t1 ++ t2).
Proof.
  intros (pre & path & po & report & logs & -> & Hr & Hq) H2.
  exists pre, path, po, report, (logs ++ t2). split; [|split; [done|]].
  - by rewrite <- !app_assoc.
  - by rewrite quiet_app, Hq, H2.
Qed.

Lemma save_report_reports L entry' failure :
  reports (time := time) L (save_report L entry' failure).
Proof. destruct failure as [[e leftover]|]; [right|left]; cbn; eauto. Qed.

Lemma capped_step_refl L s : capped_step L s s [].
Proof.
  split; [cbn; lia|]. intros Hle. split; [done|].
  intros ->. by rewrite Z.eqb_refl.
Qed.

Lemma capped_step_trans L s1 s2 s3 t1 t2 :
  capped_step L s1 s2 t1 -> capped_step L s2 s3 t2 ->
  capped_step L s1 s3 (t1 ++ t2).
Proof.
  intros [Hc1 H1] [Hc2 H2]. split.
  { rewrite saves_app, length_app. lia. }
  intros Hle. destruct (H1 Hle) as [Hle2 Hs1].
  destruct (H2 Hle2) as [Hle3 Hs2]. split; [done|].
  intros H3. specialize (Hs2 H3).
  destruct (translated_count s2 =? L) eqn:E2.
  - apply Z.eqb_eq in E2. specialize (Hs1 E2).
    destruct (translated_count s1 =? L).
    + by rewrite quiet_app, Hs1, Hs2.
    + by apply seals_app_quiet.
  - apply Z.eqb_neq in E2.
    replace (translated_count s1 =? L) with false.
    + by apply seals_app_l.
    + symmetry. apply Z.eqb_neq. lia.
Qed.

Lemma translate_entry_uncapped env o path tgt before e after s :
  cap_hit o s = false ->
  translate_entry env (uncapped o) path tgt before e after s
  = translate_entry env o path tgt before e after s.
Proof.
  intros Hcap. rewrite !translate_entry_eq, Hcap, cap_hit_uncapped.
  reflexivity.
Qed.

Lemma stopped_early_at_cap {A} L s (a : A) logs (ru : Run time A) :
  L <= translated_count s -> quiet logs = true ->
  stopped_early L {| result := Ok a; final := s; events := logs |} ru.
Proof.
  intros Hle Hq. split; [done|]. exists [], logs.
  split; [done|]. split; [done|]. apply prefix_nil.
Qed.

(** Both runs go through the same steps first and have their results
    read in the same way. *)
Lemma sim_map {A B} (stopsA : A -> bool) (stopsB : B -> bool) L
    (f : Res A -> Res B) t0 (rc ru : Run time A) :
  (forall a, stopsA a = true -> exists b, f (Ok a) = Ok b /\ stopsB b = true) ->
  sim stopsA L rc ru ->
  sim stopsB L
    {| result := f (result rc); final := final rc;
       events := t0 ++ events rc |}
    {| result := f (result ru); final := final ru;
       events := t0 ++ events ru |}.
Proof.
  intros Hf [->|[(a & Hres & Hstop) (Hle & t & logs & Hev & Hq & Hpre)]].
  { by left. }
  right. simpl_state. split.
  - rewrite Hres. destruct (Hf a Hstop) as (b & -> & Hb). eauto.
  - split; [done|]. exists (t0 ++ t), logs. rewrite Hev.
    split; [by rewrite app_assoc|]. split; [done|]. by apply prefix_app.
Qed.

(** The capped run has stopped; the uncapped one does more. *)
Lemma stopped_early_more {A B} L (rc : Run time A) (ru : Run time A)
    (ru' : Run time B) more :
  stopped_early L rc ru ->
  events ru' = events ru ++ more ->
  forall b : B,
    stopped_early L
      {| result := Ok b; final := final rc; events := events rc |} ru'.
Proof.
  intros (Hle & t & logs & Hev & Hq & Hpre) Hmore b.
  split; [done|]. exists t, logs. simpl_state.
  split; [done|]. split; [done|]. rewrite Hmore. by apply prefix_app_r.
Qed.

Lemma saves_info r t : saves (EvInfo r :: t) = saves t.
Proof. reflexivity. Qed.

Lemma attempts_info r t : attempts (EvInfo r :: t) = attempts t.
Proof. reflexivity. Qed.

Lemma saves_prefix t1 t2 :
  t1 `prefix_of` t2 -> saves t1 `prefix_of` saves t2.
Proof. intros [k ->]. rewrite saves_app. by apply prefix_app_r. Qed.

Lemma attempts_prefix t1 t2 :
  t1 `prefix_of` t2 -> attempts t1 `prefix_of` attempts t2.
Proof. intros [k ->]. rewrite attempts_app. by apply prefix_app_r. Qed.

End Cap.

Section Capped.
Context {time : Type} {arith : TimeArith time}.
Context (env : Env time) (o : Options) (L : Z).
Implicit Types (s : State time) (t : list (Event time)).
Hypothesis limit_is_L : limit_translations o = Some L.
Hypothesis L_positive : 1 <= L.

Lemma capped_step_quiet_at_cap s ev :
  cap_hit o s = true -> is_log ev = true -> capped_step L s s [ev].
Proof.
  rewrite (cap_hit_Some o L s limit_is_L L_positive).
  intros Hcap%Z.leb_le Hev. split.
  { destruct ev; try discriminate; cbn; lia. }
  intros Hle. split; [done|]. intros HL. rewrite HL, Z.eqb_refl.
  cbn. by rewrite Hev.
Qed.

Lemma capped_step_below_cap s s' t :
  cap_hit o s = false ->
  translated_count s' = translated_count s ->
  saves t = [] ->
  capped_step L s s' t.
Proof.
  rewrite (cap_hit_Some o L s limit_is_L L_positive).
  intros Hcap%Z.leb_gt Hc Hs. split; [rewrite Hs; cbn; lia|].
  intros _. split; lia.
Qed.

Lemma capped_step_progress s ev :
  cap_hit o s = false -> is_progress ev = true -> capped_step L s s [ev].
Proof.
  intros Hcap Hev. apply capped_step_below_cap; [done..|].
  by destruct ev.
Qed.

Lemma capped_step_entry path tgt before e after s :
  let r := translate_entry env o path tgt before e after s in
  capped_step L s (final r) (events r).
Proof.
  cbv zeta.
  destruct (wait_for_rate_limit_frame env o s) as (Hc & _ & _ & Hev).
  destruct (wait_events_silent _ Hev) as [Hsv _].
  destruct (translate_entry_cases env o path tgt before e after s)
    as [(Hcap & Hr) | [(Hcap & _ & Hr) | [(Hcap & _ & x & _ & Hr)
       | [(Hcap & _ & _ & x & _ & Hr) | (Hcap & _ & _ & tr & _ & Hr)]]]];
    cbv zeta in Hr; rewrite Hr; simpl_state.
  - by apply capped_step_quiet_at_cap.
  - apply capped_step_refl.
  - by apply capped_step_below_cap.
  - apply capped_step_below_cap; [done..|].
    by rewrite saves_app, Hsv.
  - rewrite (cap_hit_Some o L s limit_is_L L_positive) in Hcap.
    apply Z.leb_gt in Hcap. split.
    { simpl_state. rewrite saves_app, Hsv. cbn [app].
      change (saves (EvTranslate ?a ?b ?c ?d :: EvSave ?p ?q :: ?t))
        with ((p, q) :: saves t).
      rewrite saves_report. cbn. lia. }
    intros _. simpl_state. split; [lia|]. intros HL.
    replace (translated_count s =? L) with false
      by (symmetry; apply Z.eqb_neq; lia).
    rewrite HL. eexists (_ ++ [_]), _, _, _, [].
    rewrite <- app_assoc. split; [done|]. split; [|done].
    apply save_report_reports.
Qed.

(** Below the cap at the start, the loops of [handle] stay at or below
    it, count one save for each translation, and once at the cap do
    nothing but log. *)
Lemma capped_step_loop s :
  let r := for_ (LOCALE_PATHS env) (handle_directory env o) s in
  capped_step L s (final r) (events r).
Proof.
  apply handle_loop_T.
  - apply capped_step_refl.
  - apply capped_step_trans.
  - intros s' Hcap. by apply capped_step_quiet_at_cap.
  - apply capped_step_progress.
  - apply capped_step_entry.
Qed.

(** *** A capped run against the uncapped one *)

Lemma cap_hit_reached s : cap_hit o s = true -> L <= translated_count s.
Proof.
  rewrite (cap_hit_Some o L s limit_is_L L_positive). apply Z.leb_le.
Qed.

Lemma sim_translate_entries path tgt po : forall before s,
  sim (fun r : bool * list Entry => negb r.1) L
    (translate_entries env o path tgt before po s)
    (translate_entries env (uncapped o) path tgt before po s).
Proof.
  induction po as [|e after IH]; intros before s; [by left|].
  rewrite !translate_entries_cons. cbv zeta.
  destruct (cap_hit o s) eqn:Hcap.
  - right. rewrite translate_entry_eq, Hcap. simpl_state.
    split; [by eexists|].
    apply stopped_early_at_cap; [by apply cap_hit_reached|done].
  - rewrite (translate_entry_uncapped env o path tgt before e after s Hcap).
    destruct (result (translate_entry env o path tgt before e after s))
      as [[e'|]|x]; [|by left..].
    apply (sim_map _ _ L (fun r => r) _ _ _ (fun a Ha => ex_intro _ a
             (conj eq_refl Ha)) (IH _ _)).
Qed.

Lemma sim_translate_file root file tgt s :
  sim negb L (translate_file env o root file tgt s)
    (translate_file env (uncapped o) root file tgt s).
Proof.
  rewrite !translate_file_eq. cbv zeta.
  destruct (disk s !! join root file) as [po|]; [|by left].
  apply (sim_map (fun r : bool * list Entry => negb r.1) negb L
           (fun r => match r with Ok r => Ok r.1 | Raise x => Raise x end)
           [EvInfo (FillingUp tgt); EvLoad (join root file)]).
  - intros [b po'] Hb. by exists b.
  - apply sim_translate_entries.
Qed.

Lemma sim_handle_file root file s :
  sim is_return L (handle_file env o root file s)
    (handle_file env (uncapped o) root file s).
Proof.
  rewrite !handle_file_eq. cbv zeta. rewrite cap_hit_uncapped.
  destruct (cap_hit o s) eqn:Hcap.
  { right. split; [by eexists|].
    apply stopped_early_at_cap; [by apply cap_hit_reached|done]. }
  destruct (negb (endswith file ".po")); [by left|].
  change (locale (uncapped o)) with (locale o).
  destruct (bool_decide (locale o ≠ []) && _); [by left|].
  apply (sim_map negb is_return L
           (fun r => match r with
                     | Ok true => Ok Continue
                     | Ok false => Ok Return
                     | Raise x => Raise x
                     end) []).
  - intros [] Hb; [done|]. by exists Return.
  - apply sim_translate_file.
Qed.

Lemma sim_for {A} (xs : list A) (bc bu : A -> M time Flow) :
  (forall x s, sim is_return L (bc x s) (bu x s)) ->
  forall s, sim is_return L (for_ xs bc s) (for_ xs bu s).
Proof.
  intros Hbody. induction xs as [|x xs IH]; intros s; [by left|].
  rewrite !for_cons. cbv zeta.
  destruct (Hbody x s) as [Heq|[(a & Hres & Hstop) Hse]].
  - rewrite Heq. destruct (result (bu x s)) as [[]|e]; [|by left..].
    apply (sim_map is_return is_return L (fun r => r) _ _ _
             (fun a Ha => ex_intro _ a (conj eq_refl Ha)) (IH _)).
  - rewrite Hres. destruct a; [done|]. right. split; [by eexists|].
    destruct (result (bu x s)) as [[]|e].
    + eapply stopped_early_more; [exact Hse|]. simpl_state. reflexivity.
    + apply (stopped_early_more L _ (bu x s) _ [] Hse).
      simpl_state. by rewrite app_nil_r.
    + destruct Hse as (Hle & t & logs & Hev & Hq & Hpre).
      split; [done|]. by exists t, logs.
Qed.

Lemma sim_handle_directory directory s :
  sim is_return L (handle_directory env o directory s)
    (handle_directory env (uncapped o) directory s).
Proof.
  rewrite !handle_directory_eq. cbv zeta. rewrite cap_hit_uncapped.
  destruct (cap_hit o s) eqn:Hcap.
  { right. split; [by eexists|].
    apply stopped_early_at_cap; [by apply cap_hit_reached|done]. }
  apply (sim_map is_return is_return L (fun r => r) [EvWalk directory]).
  { intros a Ha. by exists a. }
  apply sim_for. intros [[root dirs] files] s1.
  apply sim_for. intros file s2. apply sim_handle_file.
Qed.

Lemma sim_loop s :
  sim is_return L
    (for_ (LOCALE_PATHS env) (handle_directory env o) s)
    (for_ (LOCALE_PATHS env) (handle_directory env (uncapped o)) s).
Proof. apply sim_for. intros d s'. apply sim_handle_directory. Qed.
End Capped.

Section CappedRun.
Context {time : Type} {arith : TimeArith time}.
Implicit Types (env : Env time) (o : Options) (s : State time).

(** C1, amended.  With a cap [L] of at least one, on a tree where the
    run without cap counts more than [L] translations: the capped run
    returns normally with exactly [L] translations counted; the calls of
    [po.save()] it makes are the first [L] of the run without cap; the
    texts it sends to the provider are an initial part of those the run
    without cap sends; and after the save of translation number [L] and
    its report it does nothing but log. *)
Theorem cap_stops_run env o (L : Z) s :
  limit_translations o = Some L ->
  1 <= L ->
  L < translated_count (final (handle env (uncapped o) s)) ->
  let rc := handle env o s in
  let ru := handle env (uncapped o) s in
  result rc = Ok tt
  /\ translated_count (final rc) = L
  /\ saves (events rc) = take (Z.to_nat L) (saves (events ru))
  /\ attempts (events rc) `prefix_of` attempts (events ru)
  /\ seals L (events rc).
Proof.
  intros HL Hpos. cbv zeta. rewrite !handle_eq. cbv zeta.
  set (s0 := with_request_times [] (with_translated_count 0 s)).
  destruct (USE_I18N env); [|subst s0; simpl_state; lia].
  destruct (LOCALE_PATHS env) as [|d ds] eqn:Hpaths;
    [subst s0; simpl_state; lia|].
  rewrite <- Hpaths.
  pose proof (capped_step_loop env o L HL Hpos s0) as [Hcount Hcap].
  pose proof (sim_loop env o L HL Hpos s0) as Hsim.
  cbv zeta in Hcount, Hcap.
  set (lc := for_ (LOCALE_PATHS env) (handle_directory env o) s0) in *.
  set (lu := for_ (LOCALE_PATHS env) (handle_directory env (uncapped o)) s0)
    in *.
  clearbody lc lu. simpl_state. intros HM.
  destruct Hcap as [Hle Hseal]; [subst s0; simpl_state; lia|].
  destruct Hsim as [->|[(a & Hres & _) (Hge & t & logs & Hev & Hq & Hpre)]];
    [lia|].
  assert (Hfin : translated_count (final lc) = L) by lia.
  specialize (Hseal Hfin).
  replace (translated_count s0 =? L) with false in Hseal
    by (symmetry; apply Z.eqb_neq; subst s0; simpl_state; lia).
  destruct (quiet_saves logs Hq) as [Hls Hla].
  assert (Hsaves : saves (events lc) = saves t).
  { by rewrite Hev, saves_app, Hls, app_nil_r. }
  assert (Hlen : length (saves t) = Z.to_nat L).
  { rewrite <- Hsaves. subst s0. simpl_state in Hcount. lia. }
  assert (Htl : truthy_limit o = true).
  { unfold truthy_limit. rewrite HL. apply negb_true_iff, Z.eqb_neq. lia. }
  rewrite Htl. change (truthy_limit (uncapped o)) with false.
  split; [by rewrite Hres|]. split; [done|]. split; [|split].
  - cbn [app]. rewrite !saves_info, Hsaves.
    destruct (saves_prefix _ _ Hpre) as [k ->].
    by rewrite <- Hlen, take_app_length.
  - cbn [app]. rewrite !attempts_info, Hev, attempts_app, Hla, app_nil_r.
    by apply attempts_prefix.
  - by apply (seals_app_l L [_; _]).
Qed.

End CappedRun.

(** C1, counterexample.  The cap counts translations, not entries: with
    a cap of one and a provider that is down, both entries of the catalog
    are attempted, none is translated, and the run ends normally.  And a
    cap of zero is no cap: the entry of the catalog is translated and
    saved. *)
Lemma cap_is_not_met_exactly :
  (let o := options (Some 1) 10 in
   let po := [entry "Hello" ""; entry "Bye" ""] in
   let r := handle failing_env o (with_disk {[demo_path := po]} fresh_state) in
   length (List.filter (selected o) po) = 2%nat
   /\ result r = Ok tt
   /\ attempts (events r) = ["Hello"; "Bye"]
   /\ translated_count (final r) = 0
   /\ saves (events r) = [])
  /\ (let o := options (Some 0) 10 in
      let s := with_disk {[demo_path := [entry "Hello" ""]]} fresh_state in
      let r := handle demo_env o s in
      translated_count (final r) = 1
      /\ attempts (events r) = ["Hello"]
      /\ saves (events r) = [(demo_path, [entry "Hello" "fr:Hello"])]).
Proof. vm_compute. auto 10. Qed.

Lemma cap_stops_run_witness :
  let o := options (Some 1) 10 in
  let s := with_disk {[demo_path := [entry "Hello" ""; entry "Bye" ""]]}
             fresh_state in
  let rc := handle demo_env o s in
  let ru := handle demo_env (uncapped o) s in
  result rc = Ok tt
  /\ translated_count (final rc) = 1
  /\ saves (events rc) = take (Z.to_nat 1) (saves (events ru))
  /\ attempts (events rc) `prefix_of` attempts (events ru)
  /\ seals 1 (events rc).
Proof.
  apply (cap_stops_run demo_env (options (Some 1) 10) 1
           (with_disk {[demo_path := [entry "Hello" ""; entry "Bye" ""]]}
              fresh_state)).
  - reflexivity.
  - lia.
  - vm_compute. reflexivity.
Defined.

(** ** The rate limit *)

Section RateLimit.
Context {time : Type} {arith : TimeArith time}.
Implicit Types (env : Env time) (o : Options) (s : State time).

Lemma recent_drop_head (c t0 : time) l :
  within_10s c t0 = false -> (length (recent c (t0 :: l)) <= length l)%nat.
Proof.
  intros H. unfold recent, within_10s in *. simpl. rewrite H.
  apply List.filter_length_le.
Qed.

(** One call under the limit stays under the limit, provided its sleep,
    if it takes one, lets the oldest request expire. *)
Lemma wait_for_rate_limit_bounded env o s :
  1 <= requests_per_10s o ->
  Z.of_nat (length (request_times s)) <= requests_per_10s o ->
  sleep_suffices env o s = true ->
  let r := wait_for_rate_limit env o s in
  result r = Ok tt
  /\ Z.of_nat (length (request_times (final r))) <= requests_per_10s o.
Proof.
  intros Hmax Hlen Hsleep. cbv zeta. rewrite wait_for_rate_limit_eq.
  unfold sleep_suffices in Hsleep. cbv zeta in *.
  pose proof (recent_length (time_add (now s) (lapse env (reads s)))
                (request_times s)) as Hrec.
  destruct (recent _ (request_times s)) as [|t0 l] eqn:El.
  { destruct (requests_per_10s o <=? _) eqn:Efull.
    - apply Z.leb_le in Efull. simpl in Efull. lia.
    - by simpl_state. }
  destruct (requests_per_10s o <=? _) eqn:Efull.
  - apply andb_true_iff in Hsleep as [Hpos Hgone].
    apply negb_true_iff in Hgone. rewrite Hpos. simpl_state.
    split; [done|]. rewrite length_app.
    pose proof (recent_drop_head _ t0 l Hgone) as Hdrop.
    cbn [length] in *. lia.
  - apply Z.leb_gt in Efull. simpl_state. split; [done|].
    rewrite length_app. cbn [length] in *. lia.
Qed.

(** C2, amended.  Successive calls of [wait_for_rate_limit] with a limit
    of at least one, starting with no more timestamps on record than the
    limit, each call that has to sleep reading afterwards a clock that has
    left the oldest timestamp ten seconds behind: every call returns; it
    leaves on record the timestamps it found that pass the test of the
    last ten seconds, all of them and no other, followed by the time of
    its return; these are no more than the limit, so no ten seconds hold
    more of them. *)
Theorem rate_limit_window env o s (n : nat) :
  1 <= requests_per_10s o ->
  Z.of_nat (length (request_times s)) <= requests_per_10s o ->
  sleeps_suffice env o n s = true ->
  forall k s' r,
    acquire_starts env o n s !! k = Some s' ->
    acquire_states env o n s !! k = Some r ->
    result r = Ok tt
    /\ request_times (final r) = kept_times env o s' ++ [now (final r)]
    /\ kept_times env o s' `sublist_of` request_times s'
    /\ Forall (fun t => within_10s (now (final r)) t = true)
         (kept_times env o s')
    /\ Z.of_nat (length (request_times (final r))) <= requests_per_10s o
    /\ (forall T,
          Z.of_nat (length (List.filter (within_10s T)
                      (request_times (final r))))
          <= requests_per_10s o).
Proof.
  intros Hmax. revert s.
  induction n as [|n IH]; intros s Hlen Hsleep k s' r Hs' Hk; [done|].
  cbn [sleeps_suffice] in Hsleep. apply andb_true_iff in Hsleep as [Hs Hrest].
  destruct (wait_for_rate_limit_bounded env o s Hmax Hlen Hs) as [Hok Hlen'].
  cbn [acquire_states acquire_starts] in Hk, Hs'. destruct k as [|k].
  - cbn in Hk, Hs'. injection Hk as <-. injection Hs' as <-.
    destruct (wait_for_rate_limit_appends env o s tt Hok)
      as (Happ & Hsub & Hin).
    do 4 (split; [done|]). split; [done|].
    intros T. etransitivity; [|exact Hlen']. apply inj_le.
    apply List.filter_length_le.
  - cbn in Hk, Hs'. by apply (IH _ Hlen' Hrest k s' r).
Qed.

End RateLimit.

(** C2, counterexample.  In the arithmetic of the code, on a clock that
    moves with the sleep only: with the request of 0.3 on record and the
    clock at 0.6, a call under a limit of one sleeps for the ten seconds
    less 0.3 as rounded, and the reading it takes then is, as rounded,
    still less than ten seconds after 0.3: both timestamps stay on
    record.  The same happens without rounding when the clock is set
    back while the call sleeps. *)
Lemma rate_limit_exceeded :
  (let r := wait_for_rate_limit (binary64_env 0) (options None 1)
              (binary64_state [0.3%float] 0.6%float) in
   result r = Ok tt
   /\ events r = [EvInfo (RateLimitWait (9.6999999999999993)%float);
                  EvSleep (9.6999999999999993)%float]
   /\ request_times (final r) = [0.3%float; (10.299999999999999)%float]
   /\ within_10s (10.299999999999999)%float 0.3%float = true)
  /\ (let rs := acquire_states stepping_back_env (options None 1) 2
                  fresh_state in
      (request_times ∘ final) <$> rs = [[1%Q]; [1%Q; 8%Q]]
      /\ within_10s 8%Q 1%Q = true).
Proof. vm_compute. auto 10. Qed.

(** A witness in the arithmetic of the code: two calls under a limit of
    two, made with the requests of 1 and 5 on record and the clock at 6,
    half a second passing before each reading.  Both calls have to
    sleep, and each keeps the newer of the two timestamps it found. *)
Lemma rate_limit_window_witness :
  let env := binary64_env 0.5 in
  let o := options None 2 in
  let s := binary64_state [1%float; 5%float] 6 in
  let r1 := wait_for_rate_limit env o s in
  let r2 := wait_for_rate_limit env o (final r1) in
  result r2 = Ok tt
  /\ request_times (final r2) = kept_times env o (final r1) ++ [now (final r2)]
  /\ kept_times env o (final r1) `sublist_of` request_times (final r1)
  /\ Forall (fun t => within_10s (now (final r2)) t = true)
       (kept_times env o (final r1))
  /\ Z.of_nat (length (request_times (final r2))) <= 2
  /\ (forall T,
        Z.of_nat (length (List.filter (within_10s T)
                    (request_times (final r2))))
        <= 2).
Proof.
  apply (rate_limit_window (binary64_env 0.5) (options None 2)
           (binary64_state [1%float; 5%float] 6) 2) with (k := 1%nat).
  - simpl. lia.
  - simpl. lia.
  - vm_compute. reflexivity.
  - reflexivity.
  - reflexivity.
Defined.

(** The two runs of the witness *)
Example rate_limit_window_run :
  let env := binary64_env 0.5 in
  let o := options None 2 in
  let s := binary64_state [1%float; 5%float] 6 in
  let rs := acquire_states env o 2 s in
  (request_times ∘ final) <$> rs
  = [[5%float; 11.5%float]; [11.5%float; 15.5%float]]
  /\ kept_times env o <$> acquire_starts env o 2 s
     = [[5%float]; [11.5%float]]
  /\ events <$> rs
     = [[EvInfo (RateLimitWait 4.5%float); EvSleep 4.5%float];
        [EvInfo (RateLimitWait 3%float); EvSleep 3%float]].
Proof. vm_compute. auto. Qed.

(** ** Readings without rounding *)

Ltac exact_arith :=
  cbn [time_add time_sub time_ltb time_of_int exact_time] in *;
  unfold inject_Z in *.

Lemma Qltb_lt (x y : Q) : Qltb x y = true <-> (x < y)%Q.
Proof.
  unfold Qltb. rewrite negb_true_iff. split.
  - intros H. apply Qnot_le_lt. intros Hle.
    apply Qle_bool_iff in Hle. congruence.
  - intros H. destruct (Qle_bool y x) eqn:E; [|reflexivity].
    apply Qle_bool_iff in E. lra.
Qed.


Lemma within_10s_lt (T t : Q) : within_10s T t = true <-> (T - t < 10)%Q.
Proof. unfold within_10s. exact_arith. apply Qltb_lt. Qed.









Section ExactClock.
Context (env : Env Q) (o : Options).
Hypothesis clock_sound : forall k, (0 <= lapse env k)%Q.





End ExactClock.

(** * Further properties of the code *)

(** ** The rate limiter on readings without rounding *)



(** ** How long and how often the rate limiter sleeps *)



(** ** Counters *)

Section Counters.
Context {time : Type} {arith : TimeArith time}.
Implicit Types (env : Env time) (o : Options) (s : State time).
Implicit Types (t : list (Event time)).

Lemma counted_step_refl s : counted_step s s [].
Proof. repeat split; cbn; lia. Qed.

Lemma counted_step_trans s1 s2 s3 t1 t2 :
  counted_step s1 s2 t1 -> counted_step s2 s3 t2 ->
  counted_step s1 s3 (t1 ++ t2).
Proof.
  intros (Hc1 & Hk1 & Hl1) (Hc2 & Hk2 & Hl2). unfold counted_step.
  rewrite saves_app, attempts_app, !length_app. repeat split; lia.
Qed.

Lemma counted_step_progress s ev :
  is_progress ev = true -> counted_step s s [ev].
Proof. destruct ev; try discriminate; intros _; repeat split; cbn; lia. Qed.

Lemma counted_step_entry env o path tgt before e after s :
  let r := translate_entry env o path tgt before e after s in
  counted_step s (final r) (events r).
Proof.
  cbv zeta.
  destruct (wait_for_rate_limit_frame env o s) as (Hc & _ & Hk & Hev).
  destruct (wait_events_silent _ Hev) as [Hsv Hat].
  destruct (translate_entry_cases env o path tgt before e after s)
    as [(_ & Hr) | [(_ & _ & Hr) | [(_ & _ & x & _ & Hr)
       | [(_ & _ & _ & x & _ & Hr) | (_ & _ & _ & tr & _ & Hr)]]]];
    cbv zeta in Hr; rewrite Hr; unfold counted_step; simpl_state;
    rewrite ?saves_app, ?attempts_app, ?Hsv, ?Hat;
    try destruct (save_error env _ _ _) as [[]|];
    cbn -[wait_for_rate_limit]; repeat split; lia.
Qed.

Lemma counted_step_loop env o s :
  let r := for_ (LOCALE_PATHS env) (handle_directory env o) s in
  counted_step s (final r) (events r).
Proof.
  apply handle_loop_T.
  - apply counted_step_refl.
  - apply counted_step_trans.
  - intros s' _. by apply counted_step_progress.
  - intros s' ev _. apply counted_step_progress.
  - apply counted_step_entry.
Qed.

Lemma saves_follow_calls_weaken previous t :
  saves_follow_calls None t = true -> saves_follow_calls previous t = true.
Proof. destruct t as [|[] t]; cbn; try done. Qed.

Lemma saves_follow_calls_app previous t1 t2 :
  saves_follow_calls previous t1 = true ->
  saves_follow_calls None t2 = true ->
  saves_follow_calls previous (t1 ++ t2) = true.
Proof.
  revert previous. induction t1 as [|ev t1 IH]; intros previous H1 H2.
  { by apply saves_follow_calls_weaken. }
  cbn [app saves_follow_calls] in *.
  apply andb_true_iff in H1 as [Hev H1]. rewrite Hev. by apply IH.
Qed.

Lemma wait_events_no_save (w : list (Event time)) :
  forallb is_wait_event w = true -> saves_follow_calls None w = true.
Proof.
  assert (H : forall previous, forallb is_wait_event w = true ->
                saves_follow_calls previous w = true); [|by apply H].
  induction w as [|[[]| | | | | |] w IH]; intros previous; cbn; intros H;
    try discriminate; auto.
Qed.

Lemma saves_follow_calls_entry env o path tgt before e after s :
  saves_follow_calls None
    (events (translate_entry env o path tgt before e after s)) = true.
Proof.
  pose proof (wait_events_no_save _
                (proj2 (proj2 (proj2 (wait_for_rate_limit_frame env o s)))))
    as Hw.
  destruct (translate_entry_cases env o path tgt before e after s)
    as [(_ & Hr) | [(_ & _ & Hr) | [(_ & _ & x & _ & Hr)
       | [(_ & _ & _ & x & _ & Hr) | (_ & _ & _ & tr & _ & Hr)]]]];
    cbv zeta in Hr; rewrite Hr; simpl_state; try done;
    (apply saves_follow_calls_app; [done|]).
  - done.
  - cbn. rewrite bool_decide_eq_true_2 by done.
    by destruct (save_error env _ _ _) as [[]|].
Qed.

(** X1.  The counter counts the calls of [po.save()]: it is raised
    before each of them, whether the save goes through or raises, and by
    nothing else.  Every call of [po.save()] comes right after a provider
    call made for the catalog it writes, so there are no more of them than
    provider calls. *)
Theorem every_save_is_counted env o s :
  let r := handle env o s in
  translated_count (final r) = Z.of_nat (length (saves (events r)))
  /\ saves_follow_calls None (events r) = true
  /\ (length (saves (events r)) <= length (attempts (events r)))%nat.
Proof.
  cbv zeta. rewrite handle_eq. cbv zeta.
  destruct (USE_I18N env); [|cbn; repeat split; lia].
  destruct (LOCALE_PATHS env) as [|d ds] eqn:Hpaths;
    [cbn; repeat split; lia|].
  rewrite <- Hpaths.
  pose proof (counted_step_loop env o
                (with_request_times [] (with_translated_count 0 s)))
    as (Hc & Hk & Hl).
  assert (Hfollow :
    let r := for_ (LOCALE_PATHS env) (handle_directory env o)
               (with_request_times [] (with_translated_count 0 s)) in
    saves_follow_calls None (events r) = true).
  { apply (handle_loop_T env o
             (fun _ _ t => saves_follow_calls None t = true)).
    - done.
    - intros _ _ _ t1 t2. apply saves_follow_calls_app.
    - done.
    - intros _ ev _ Hev. by destruct ev.
    - intros. apply saves_follow_calls_entry. }
  cbv zeta in Hc, Hk, Hl, Hfollow. simpl_state. simpl_state in Hc.
  destruct (truthy_limit o); cbn [app]; rewrite ?saves_info, ?attempts_info;
    (split; [lia|]); (split; [|lia]).
  - by apply (saves_follow_calls_app None [_; _]).
  - by apply (saves_follow_calls_app None [_]).
Qed.

(** X2.  With a cap of at least one the counter never passes the cap,
    whatever the tree and the provider do. *)
Theorem cap_never_exceeded env o (L : Z) s :
  limit_translations o = Some L ->
  1 <= L ->
  let r := handle env o s in
  0 <= translated_count (final r) <= L
  /\ (length (saves (events r)) <= Z.to_nat L)%nat.
Proof.
  intros HL Hpos. cbv zeta. rewrite handle_eq. cbv zeta.
  destruct (USE_I18N env); [|cbn; lia].
  destruct (LOCALE_PATHS env) as [|d ds] eqn:Hpaths; [cbn; lia|].
  rewrite <- Hpaths.
  pose proof (counted_step_loop env o
                (with_request_times [] (with_translated_count 0 s)))
    as (Hc & _ & _).
  pose proof (capped_step_loop env o L HL Hpos
                (with_request_times [] (with_translated_count 0 s)))
    as [_ Hcap].
  cbv zeta in Hc, Hcap. simpl_state in Hc. simpl_state in Hcap.
  destruct Hcap as [Hle _]; [lia|]. simpl_state.
  destruct (truthy_limit o); cbn [app]; rewrite ?saves_info; lia.
Qed.

(** ** Caps that are not positive *)

(** X3.  A negative cap is reached before anything is done: with a
    valid configuration the run logs the cap, the rate and the stop, and
    returns without walking a directory. *)
Theorem negative_cap_stops_at_once env o (L : Z) s :
  limit_translations o = Some L ->
  L < 0 ->
  USE_I18N env = true ->
  LOCALE_PATHS env <> [] ->
  handle env o s =
  {| result := Ok tt;
     final := with_request_times [] (with_translated_count 0 s);
     events := [EvInfo (LimitSet (Some L));
                EvInfo (RateLimit (requests_per_10s o));
                EvInfo (LimitReachedStopping (Some L))] |}.
Proof.
  intros HL Hneg Hi18n Hpaths. rewrite handle_eq. cbv zeta.
  rewrite Hi18n. destruct (LOCALE_PATHS env) as [|d ds]; [done|].
  rewrite for_cons, handle_directory_eq. cbv zeta.
  assert (Hne : (L =? 0) = false) by (apply Z.eqb_neq; lia).
  assert (Hle : (L <=? 0) = true) by (apply Z.leb_le; lia).
  unfold cap_hit, truthy_limit. rewrite HL, Hne. simpl_state.
  rewrite Hle. reflexivity.
Qed.

Lemma for_ext {A} (xs : list A) (b1 b2 : A -> M time Flow) :
  (forall x s, b1 x s = b2 x s) ->
  forall s, for_ xs b1 s = for_ xs b2 s.
Proof.
  intros Hb. induction xs as [|x xs IH]; intros s; [done|].
  rewrite !for_cons, Hb. cbv zeta.
  destruct (result (b2 x s)) as [[]|e]; [|done..]. by rewrite IH.
Qed.

End Counters.

Lemma cap_never_exceeded_witness :
  let o := options (Some 1) 10 in
  let s := with_disk {[demo_path := [entry "Hello" ""; entry "Bye" ""]]}
             fresh_state in
  let r := handle demo_env o s in
  0 <= translated_count (final r) <= 1
  /\ (length (saves (events r)) <= Z.to_nat 1)%nat.
Proof.
  apply (cap_never_exceeded demo_env (options (Some 1) 10) 1
           (with_disk {[demo_path := [entry "Hello" ""; entry "Bye" ""]]}
              fresh_state)).
  - reflexivity.
  - lia.
Defined.

Lemma negative_cap_stops_at_once_witness :
  handle demo_env (options (Some (-1)) 10) fresh_state =
  {| result := Ok tt;
     final := with_request_times [] (with_translated_count 0 fresh_state);
     events := [EvInfo (LimitSet (Some (-1)));
                EvInfo (RateLimit (requests_per_10s (options (Some (-1)) 10)));
                EvInfo (LimitReachedStopping (Some (-1)))] |}.
Proof.
  apply (negative_cap_stops_at_once demo_env (options (Some (-1)) 10) (-1)
           fresh_state).
  - reflexivity.
  - lia.
  - reflexivity.
  - simpl. discriminate.
Defined.

Section NeverCapped.
Context {time : Type} {arith : TimeArith time}.
Context (env : Env time) (o : Options).
Implicit Types (s : State time).
Hypothesis never_hit : forall s, cap_hit o s = false.

Lemma translate_entries_never_capped path tgt po : forall before s,
  translate_entries env o path tgt before po s
  = translate_entries env (uncapped o) path tgt before po s.
Proof.
  induction po as [|e after IH]; intros before s; [done|].
  rewrite !translate_entries_cons. cbv zeta.
  rewrite (translate_entry_uncapped env o path tgt before e after s
             (never_hit s)).
  destruct (result (translate_entry env o path tgt before e after s))
    as [[e'|]|x]; [|done..]. by rewrite IH.
Qed.

Lemma handle_file_never_capped root file s :
  handle_file env o root file s = handle_file env (uncapped o) root file s.
Proof.
  rewrite !handle_file_eq. cbv zeta. rewrite !translate_file_eq. cbv zeta.
  rewrite never_hit, cap_hit_uncapped.
  change (locale (uncapped o)) with (locale o).
  destruct (negb (endswith file ".po")); [done|].
  destruct (bool_decide (locale o ≠ []) && _); [done|].
  destruct (disk s !! join root file); [|done].
  by rewrite translate_entries_never_capped.
Qed.

Lemma handle_directory_never_capped directory s :
  handle_directory env o directory s
  = handle_directory env (uncapped o) directory s.
Proof.
  rewrite !handle_directory_eq. cbv zeta.
  rewrite never_hit, cap_hit_uncapped.
  rewrite (for_ext (walk env directory) _
             (fun '(root, dirs, files) =>
                for_ files (handle_file env (uncapped o) root))); [done|].
  intros [[root dirs] files] s1.
  apply for_ext. intros file s2. apply handle_file_never_capped.
Qed.
End NeverCapped.

Section Runs.
Context {time : Type} {arith : TimeArith time}.
Implicit Types (env : Env time) (o : Options) (s : State time).
Implicit Types (t : list (Event time)).

(** X4.  A cap of zero is treated as no cap at all: the run is, event
    for event and state for state, the run with the cap left out. *)
Theorem zero_cap_is_no_cap env o s :
  limit_translations o = Some 0 ->
  handle env o s = handle env (uncapped o) s.
Proof.
  intros HL.
  assert (Hnever : forall s', cap_hit o s' = false).
  { intros s'. unfold cap_hit. by rewrite HL. }
  rewrite !handle_eq. cbv zeta.
  replace (truthy_limit o) with false by (unfold truthy_limit; by rewrite HL).
  change (truthy_limit (uncapped o)) with false.
  change (requests_per_10s (uncapped o)) with (requests_per_10s o).
  rewrite (for_ext _ _ _ (handle_directory_never_capped env o Hnever)).
  reflexivity.
Qed.

(** ** What a run can raise *)

Lemma translate_entries_never_raise env o path tgt po :
  1 <= requests_per_10s o ->
  forall before s e,
    result (translate_entries env o path tgt before po s) <> Raise e.
Proof.
  intros Hmax. induction po as [|entry after IH]; intros before s e; [done|].
  rewrite translate_entries_cons. cbv zeta.
  destruct (translate_entry_cases env o path tgt before entry after s)
    as [(_ & Hr) | [(_ & _ & Hr) | [(_ & _ & x & Hw & _)
       | [(_ & _ & _ & x & _ & Hr) | (_ & _ & _ & tr & _ & Hr)]]]];
    cbv zeta in *.
  3:{ by rewrite (wait_never_raises env o s Hmax) in Hw. }
  all: rewrite Hr; simpl_state; try done; apply IH.
Qed.

Lemma for_raises {A} (E : Exn -> Prop) (xs : list A)
    (body : A -> M time Flow) :
  (forall x s, x ∈ xs -> raises_only E (body x s)) ->
  forall s, raises_only E (for_ xs body s).
Proof.
  induction xs as [|x xs IH]; intros Hbody s e; [done|].
  rewrite for_cons. cbv zeta.
  pose proof (Hbody x s (list_elem_of_here _ _)) as Hx.
  destruct (result (body x s)) as [[]|x0] eqn:Hres; simpl_state.
  - apply IH. intros y s' Hy. apply Hbody. by apply list_elem_of_further.
  - done.
  - intros [= ->]. by apply Hx.
Qed.

Lemma handle_file_raises env o root file s e :
  1 <= requests_per_10s o ->
  result (handle_file env o root file s) = Raise e ->
  e = OSError (join root file)
  /\ endswith file ".po" = true
  /\ (locale o = [] \/ basename (dirname root) ∈ locale o).
Proof.
  intros Hmax. rewrite handle_file_eq. cbv zeta.
  destruct (cap_hit o s); [done|].
  destruct (endswith file ".po"); [|done]. cbn [negb].
  destruct (bool_decide (locale o ≠ [])) eqn:Hne;
    destruct (bool_decide (_ ∉ locale o)) eqn:Hin; cbn [andb]; try done.
  all: rewrite translate_file_eq; cbv zeta.
  all: destruct (disk s !! join root file) as [po|]; simpl_state.
  all: try (pose proof (translate_entries_never_raise env o (join root file)
                          (basename (dirname root)) po Hmax [] s) as Hno;
            destruct (result (translate_entries _ _ _ _ _ _ _))
              as [[[] ?]|x]; try done; by destruct (Hno x)).
  - intros [= <-]. split; [done|]. split; [done|]. right.
    apply bool_decide_eq_false in Hin. by apply dec_stable.
  - intros [= <-]. split; [done|]. split; [done|]. left.
    apply bool_decide_eq_false in Hne. by apply dec_stable.
  - intros [= <-]. split; [done|]. split; [done|]. left.
    apply bool_decide_eq_false in Hne. by apply dec_stable.
Qed.

(** X5.  With a rate of at least one request per ten seconds a run can
    fail in two ways only: the configuration is refused, or a walked
    catalog of an allowed locale cannot be loaded.  The rate limiter, the
    provider and [po.save()] never make it fail. *)
Theorem run_fails_on_configuration_or_load_only env o s (e : Exn) :
  1 <= requests_per_10s o ->
  result (handle env o s) = Raise e ->
  config_or_load_error env o e /\ e <> IndexError.
Proof.
  intros Hmax Hres.
  assert (H : config_or_load_error env o e).
  2:{ split; [done|]. by destruct H as [(m & -> & _)|(p & -> & _)]. }
  revert Hres. rewrite handle_eq. cbv zeta.
  destruct (USE_I18N env) eqn:Hi18n.
  2:{ intros [= <-]. left. eauto. }
  destruct (LOCALE_PATHS env) as [|d ds] eqn:Hpaths.
  { intros [= <-]. left. eauto. }
  rewrite <- Hpaths. simpl_state.
  destruct (result (for_ _ _ _)) as [f|x] eqn:Hloop; [done|].
  intros [= <-]. right. revert Hloop.
  apply (for_raises
           (fun x => exists path, x = OSError path /\ walked_catalog env o path)).
  intros directory s1 Hd x1. rewrite handle_directory_eq. cbv zeta.
  destruct (cap_hit o s1); [done|]. simpl_state.
  apply (for_raises
           (fun x => exists path, x = OSError path /\ walked_catalog env o path)).
  intros [[root dirs] files] s2 Hroot.
  apply for_raises. intros file s3 Hfile x3 Hx3.
  destruct (handle_file_raises env o root file s3 x3 Hmax Hx3)
    as (-> & Hpo & Hloc).
  eexists. split; [done|]. by exists directory, root, dirs, files, file.
Qed.

(** ** A rate that is not positive *)

Lemma idle_step_refl s : idle_step s s [].
Proof. by intros H. Qed.

Lemma idle_step_trans s1 s2 s3 t1 t2 :
  idle_step s1 s2 t1 -> idle_step s2 s3 t2 -> idle_step s1 s3 (t1 ++ t2).
Proof.
  intros H1 H2 Hs. destruct (H1 Hs) as (Hr1 & Ha1 & Hs1 & Hd1 & Hc1).
  destruct (H2 Hr1) as (Hr2 & Ha2 & Hs2 & Hd2 & Hc2).
  rewrite attempts_app, saves_app, Ha1, Ha2, Hs1, Hs2.
  repeat split; [done|congruence|congruence].
Qed.

Lemma idle_step_progress s ev : is_progress ev = true -> idle_step s s [ev].
Proof. by destruct ev. Qed.

Lemma idle_step_entry env o path tgt before e after s :
  requests_per_10s o <= 0 ->
  let r := translate_entry env o path tgt before e after s in
  idle_step s (final r) (events r).
Proof.
  intros Hmax. cbv zeta. intros Hfresh.
  assert (Hw : wait_for_rate_limit env o s
               = {| result := Raise IndexError;
                    final := with_request_times []
                               (with_clock
                                  (time_add (now s) (lapse env (reads s)))
                                  (S (reads s)) s);
                    events := [] |}).
  { rewrite wait_for_rate_limit_eq. cbv zeta. rewrite Hfresh. cbn [recent
      List.filter length].
    replace (requests_per_10s o <=? Z.of_nat 0) with true; [done|].
    symmetry. apply Z.leb_le. lia. }
  destruct (translate_entry_cases env o path tgt before e after s)
    as [(_ & Hr) | [(_ & _ & Hr) | [(_ & _ & x & _ & Hr)
       | [(_ & _ & Hok & _) | (_ & _ & Hok & _)]]]];
    cbv zeta in *; try (by rewrite Hw in Hok).
  all: rewrite Hr; try rewrite Hw; simpl_state; done.
Qed.

(** X6.  With a rate of zero or less no translation is ever attempted:
    the first entry that would be sent makes the rate limiter raise, so a
    run calls the provider for nothing, saves nothing and leaves the disk
    and the counter as they were. *)
Theorem nonpositive_rate_translates_nothing env o s :
  requests_per_10s o <= 0 ->
  let r := handle env o s in
  attempts (events r) = [] /\ saves (events r) = []
  /\ disk (final r) = disk s /\ translated_count (final r) = 0
  /\ calls (final r) = calls s.
Proof.
  intros Hmax. cbv zeta.
  pose proof (every_run := counted_step_loop env o
                (with_request_times [] (with_translated_count 0 s))).
  destruct every_run as (_ & Hk & _).
  assert (Hidle : let r := for_ (LOCALE_PATHS env) (handle_directory env o)
                             (with_request_times []
                                (with_translated_count 0 s)) in
                  idle_step (with_request_times [] (with_translated_count 0 s))
                    (final r) (events r)).
  { apply handle_loop_T.
    - apply idle_step_refl.
    - apply idle_step_trans.
    - intros s' _. by apply idle_step_progress.
    - intros s' ev _. apply idle_step_progress.
    - intros. by apply idle_step_entry. }
  cbv zeta in Hidle, Hk. destruct Hidle as (_ & Ha & Hs & Hd & Hc); [done|].
  simpl_state in Hd. simpl_state in Hc. simpl_state in Hk.
  rewrite Ha in Hk.
  rewrite handle_eq. cbv zeta.
  destruct (USE_I18N env); [|done].
  destruct (LOCALE_PATHS env) as [|d ds] eqn:Hpaths; [done|].
  simpl_state.
  destruct (truthy_limit o); cbn [app];
    rewrite ?saves_info, ?attempts_info, Ha, Hs, Hd, Hc, Hk; cbn;
    repeat split; lia.
Qed.

End Runs.

Lemma zero_cap_is_no_cap_witness :
  handle demo_env (options (Some 0) 10)
    (with_disk {[demo_path := [entry "Hello" ""]]} fresh_state)
  = handle demo_env (uncapped (options (Some 0) 10))
      (with_disk {[demo_path := [entry "Hello" ""]]} fresh_state).
Proof.
  apply (zero_cap_is_no_cap demo_env (options (Some 0) 10)
           (with_disk {[demo_path := [entry "Hello" ""]]} fresh_state)).
  reflexivity.
Defined.

Lemma run_fails_on_configuration_or_load_only_witness :
  config_or_load_error demo_env (options None 10)
    (OSError demo_path)
  /\ OSError demo_path <> IndexError.
Proof.
  apply (run_fails_on_configuration_or_load_only demo_env (options None 10)
           fresh_state (OSError demo_path)).
  - simpl. lia.
  - reflexivity.
Defined.

Lemma nonpositive_rate_translates_nothing_witness :
  let s := with_disk {[demo_path := [entry "Hello" ""]]} fresh_state in
  let r := handle demo_env (options None 0) s in
  attempts (events r) = [] /\ saves (events r) = []
  /\ disk (final r) = disk s /\ translated_count (final r) = 0
  /\ calls (final r) = calls s.
Proof.
  apply (nonpositive_rate_translates_nothing demo_env (options None 0)
           (with_disk {[demo_path := [entry "Hello" ""]]} fresh_state)).
  simpl. lia.
Defined.

(** ** What a run writes *)

Section Catalogs.
Context {time : Type} {arith : TimeArith time}.
Implicit Types (env : Env time) (o : Options) (s : State time).
Implicit Types (t : list (Event time)).

Lemma edited_refl o e : edited o e e.
Proof. by repeat split. Qed.

Lemma edited_all_refl o po : Forall2 (edited o) po po.
Proof. induction po; constructor; auto using edited_refl. Qed.

(** Translating an entry that the rule selects keeps it an edited form
    of the entry it comes from. *)
Lemma edited_set_translation o translation e0 e :
  edited o e0 e -> selected o e = true ->
  edited o e0 (set_translation o translation e).
Proof.
  intros (Hid & Hob & Hpl & Hsame) Hsel. repeat split; try done.
  intros Hno. rewrite (Hsame Hno) in Hsel. congruence.
Qed.

Lemma edited_replace o po0 before e e' after :
  Forall2 (edited o) po0 (before ++ e :: after) ->
  (forall e0, edited o e0 e -> edited o e0 e') ->
  Forall2 (edited o) po0 (before ++ e' :: after).
Proof.
  intros H He.
  apply Forall2_app_inv_r in H as (p1 & p2 & H1 & H2 & ->).
  apply Forall2_cons_inv_r in H2 as (e0 & p3 & H0 & H3 & ->).
  apply Forall2_app; [done|]. constructor; [by apply He|done].
Qed.

Lemma translate_entries_saves env o path tgt todo : forall before s po0,
  Forall2 (edited o) po0 (before ++ todo) ->
  Forall (fun save => save.1 = path /\ Forall2 (edited o) po0 save.2)
    (saves (events (translate_entries env o path tgt before todo s))).
Proof.
  induction todo as [|e after IH]; intros before s po0 Hsame; [constructor|].
  rewrite translate_entries_cons. cbv zeta.
  destruct (wait_events_silent _
              (proj2 (proj2 (proj2 (wait_for_rate_limit_frame env o s)))))
    as [Hsv _].
  destruct (translate_entry_cases env o path tgt before e after s)
    as [(_ & Hr) | [(_ & _ & Hr) | [(_ & _ & x & _ & Hr)
       | [(_ & _ & _ & x & _ & Hr) | (_ & Hsel & _ & tr & _ & Hr)]]]];
    cbv zeta in Hr; rewrite Hr; simpl_state.
  - constructor.
  - apply IH. by rewrite <- app_assoc.
  - rewrite Hsv. constructor.
  - rewrite !saves_app, Hsv. cbn [app].
    change (saves [?a; EvError ?b]) with (@nil (string * list Entry)).
    cbn [app]. apply IH. by rewrite <- app_assoc.
  - assert (Hnew : Forall2 (edited o) po0
                     (before ++ set_translation o tr e :: after)).
    { apply (edited_replace o po0 before e); [done|].
      intros e0 He0. by apply edited_set_translation. }
    rewrite !saves_app, Hsv. cbn [app].
    change (saves (EvTranslate ?a ?b ?c ?d :: EvSave ?p ?q :: ?t))
      with ((p, q) :: saves t).
    rewrite saves_report. cbn [app saves omap list_omap].
    constructor; [done|]. apply IH. by rewrite <- app_assoc.
Qed.

(** X9.  Every catalog that is passed to [po.save()] while a file is
    handled is the catalog loaded from that file, entry for entry and in
    the same order: each entry has its source text, its obsolete mark and
    its plural forms, and an entry that the rule does not select is
    passed on exactly as loaded.  Only translations and flags of selected
    entries change, and the file written to is the file loaded. *)
Theorem saved_catalogs_keep_their_entries env o (root file : string) s
    (po : list Entry) :
  disk s !! join root file = Some po ->
  let r := handle_file env o root file s in
  Forall (fun save => save.1 = join root file
                      /\ Forall2 (edited o) po save.2
                      /\ msgid <$> save.2 = msgid <$> po)
    (saves (events r)).
Proof.
  intros Hdisk. cbv zeta.
  assert (H : Forall (fun save => save.1 = join root file
                                    /\ Forall2 (edited o) po save.2)
                (saves (events (handle_file env o root file s)))).
  { rewrite handle_file_eq. cbv zeta.
    destruct (cap_hit o s); [constructor|].
    destruct (negb (endswith file ".po")); [constructor|].
    destruct (bool_decide (locale o ≠ []) && _); [constructor|].
    rewrite translate_file_eq. cbv zeta. rewrite Hdisk. simpl_state.
    change (saves (EvInfo ?a :: EvLoad ?b :: ?t)) with (saves t).
    apply translate_entries_saves. apply edited_all_refl. }
  eapply Forall_impl; [exact H|]. intros [p po'] [Hp Hed].
  split; [done|]. split; [done|]. cbn in *. clear -Hed.
  induction Hed as [|e e' l l' (Hid & _) _ IH]; cbn; [done|].
  by rewrite Hid, IH.
Qed.

(** ** Which catalogs a run touches *)

Lemma wait_events_about path (w : list (Event time)) :
  forallb is_wait_event w = true -> Forall (about_catalog path) w.
Proof.
  induction w as [|[[]| | | | | |] w IH]; cbn; intros H;
    try discriminate; constructor; auto; done.
Qed.

Lemma save_report_about path count entry' failure :
  about_catalog (time := time) path (save_report count entry' failure).
Proof. by destruct failure as [[]|]. Qed.

Lemma translate_entries_about env o path tgt po before s :
  Forall (about_catalog path)
    (events (translate_entries env o path tgt before po s)).
Proof.
  apply (translate_entries_T env o
           (fun _ _ t => Forall (about_catalog path) t)).
  - intros _. constructor.
  - intros _ _ _ t1 t2 H1 H2. apply Forall_app. by split.
  - intros before' e after s'. cbv zeta.
    pose proof (wait_events_about path _
                  (proj2 (proj2 (proj2 (wait_for_rate_limit_frame env o s')))))
      as Hw.
    destruct (translate_entry_cases env o path tgt before' e after s')
      as [(_ & Hr) | [(_ & _ & Hr) | [(_ & _ & x & _ & Hr)
         | [(_ & _ & _ & x & _ & Hr) | (_ & _ & _ & tr & _ & Hr)]]]];
      cbv zeta in Hr; rewrite Hr; simpl_state;
      rewrite ?Forall_app; repeat split; try done; repeat constructor;
      apply save_report_about.
Qed.

Lemma handle_file_within_walk env o directory root dirs files file s :
  directory ∈ LOCALE_PATHS env ->
  (root, dirs, files) ∈ walk env directory ->
  file ∈ files ->
  Forall (within_walk env o) (events (handle_file env o root file s)).
Proof.
  intros Hd Hroot Hfile. rewrite handle_file_eq. cbv zeta.
  destruct (cap_hit o s); [by repeat constructor|].
  destruct (endswith file ".po") eqn:Hpo; [|constructor]. cbn [negb].
  destruct (bool_decide (locale o ≠ []) && _) eqn:Hloc;
    [by repeat constructor|].
  assert (Hwalked : walked_catalog env o (join root file)).
  { exists directory, root, dirs, files, file. repeat split; try done.
    apply andb_false_iff in Hloc as [H|H]; apply bool_decide_eq_false in H.
    - left. by apply dec_stable.
    - right. by apply dec_stable. }
  rewrite translate_file_eq. cbv zeta.
  destruct (disk s !! join root file) as [po|]; simpl_state.
  2:{ by repeat constructor. }
  constructor; [done|]. constructor; [done|].
  eapply Forall_impl; [apply translate_entries_about|].
  intros [] Hev; cbn in *; try done; by subst.
Qed.

(** X10.  Every catalog a run loads, sends text from or saves is a
    file ending in [.po] found by the walk of a configured directory,
    under a locale that the allow-list lets through; every directory
    walked is a configured one. *)
Theorem run_stays_within_walk env o s :
  Forall (within_walk env o) (events (handle env o s)).
Proof.
  rewrite handle_eq. cbv zeta.
  destruct (USE_I18N env); [|constructor].
  destruct (LOCALE_PATHS env) as [|d ds] eqn:Hpaths; [constructor|].
  rewrite <- Hpaths. simpl_state.
  apply Forall_app. split; [by destruct (truthy_limit o); repeat constructor|].
  constructor; [done|].
  pose (T := fun (_ _ : State time) (t : list (Event time)) =>
               Forall (within_walk env o) t).
  assert (Trefl : forall s0, T s0 s0 []) by (intros ?; constructor).
  assert (Ttrans : forall s1 s2 s3 t1 t2,
             T s1 s2 t1 -> T s2 s3 t2 -> T s1 s3 (t1 ++ t2)).
  { intros ? ? ? t1 t2 H1 H2. apply Forall_app. by split. }
  apply (for_T T Trefl Ttrans).
  intros directory s1 Hdir. rewrite handle_directory_eq. cbv zeta.
  destruct (cap_hit o s1); [by repeat constructor|]. simpl_state.
  constructor; [done|].
  apply (for_T T Trefl Ttrans). intros [[root dirs] files] s2 Hroot.
  apply (for_T T Trefl Ttrans). intros file s3 Hfile.
  by eapply handle_file_within_walk.
Qed.

(** ** What [translate_file] returns *)

Lemma translate_entries_false env o path tgt po : forall before s po',
  result (translate_entries env o path tgt before po s) = Ok (false, po') ->
  let r := translate_entries env o path tgt before po s in
  cap_hit o (final r) = true
  /\ exists pre,
       events r = pre ++ [EvInfo (LimitReached (limit_translations o))].
Proof.
  induction po as [|e after IH]; intros before s po'; [done|].
  cbv zeta. rewrite translate_entries_cons. cbv zeta.
  destruct (translate_entry_cases env o path tgt before e after s)
    as [(Hcap & Hr) | [(_ & _ & Hr) | [(_ & _ & x & _ & Hr)
       | [(_ & _ & _ & x & _ & Hr) | (_ & _ & _ & tr & _ & Hr)]]]];
    cbv zeta in Hr; rewrite Hr; simpl_state.
  - intros _. split; [done|]. by exists [].
  - intros H. destruct (IH _ _ _ H) as [Hc [pre Hpre]].
    split; [done|]. by exists pre.
  - done.
  - intros H. destruct (IH _ _ _ H) as [Hc [pre Hpre]].
    split; [done|]. eexists. rewrite Hpre, app_assoc. reflexivity.
  - intros H. destruct (IH _ _ _ H) as [Hc [pre Hpre]].
    split; [done|]. eexists. rewrite Hpre, app_assoc. reflexivity.
Qed.

(** X13.  [translate_file] returns [False] only when the cap is
    reached: the counter is then at or above a cap that is not zero, and
    the last thing the call did was to log that the limit is reached.  In
    particular without a cap it never returns [False]. *)
Theorem translate_file_false_means_cap env o (root file tgt : string) s :
  let r := translate_file env o root file tgt s in
  result r = Ok false ->
  cap_hit o (final r) = true
  /\ (exists L, limit_translations o = Some L /\ L <> 0
                /\ L <= translated_count (final r))
  /\ exists pre,
       events r = pre ++ [EvInfo (LimitReached (limit_translations o))].
Proof.
  cbv zeta. rewrite translate_file_eq. cbv zeta.
  destruct (disk s !! join root file) as [po|]; [|done]. simpl_state.
  destruct (result (translate_entries env o _ tgt [] po s))
    as [[[] po']|x] eqn:Hres; try done.
  intros _. destruct (translate_entries_false _ _ _ _ _ _ _ _ Hres)
    as [Hcap [pre Hpre]].
  split; [done|]. split.
  - unfold cap_hit in Hcap. destruct (limit_translations o) as [L|]; [|done].
    apply andb_true_iff in Hcap as [Hne Hle]. exists L.
    split; [done|]. split; [|by apply Z.leb_le].
    by apply negb_true_iff, Z.eqb_neq in Hne.
  - exists (EvInfo (FillingUp tgt) :: EvLoad (join root file) :: pre).
    by rewrite Hpre.
Qed.

(** ** Runs that complete *)

Lemma for_ok {A} (I : State time -> Prop) (xs : list A)
    (body : A -> M time Flow) :
  (forall x s, x ∈ xs -> I s ->
     I (final (body x s)) /\ forall e, result (body x s) <> Raise e) ->
  forall s, I s ->
    I (final (for_ xs body s)) /\ forall e, result (for_ xs body s) <> Raise e.
Proof.
  induction xs as [|x xs IH]; intros Hbody s Hs; [done|].
  rewrite for_cons. cbv zeta.
  destruct (Hbody x s (list_elem_of_here _ _) Hs) as [Hx Hno].
  destruct (result (body x s)) as [[]|e] eqn:Hres; simpl_state.
  - apply IH; [|done]. intros y s' Hy. apply Hbody.
    by apply list_elem_of_further.
  - done.
  - by destruct (Hno e).
Qed.

(** A file that holds a catalog goes on holding one: a save replaces
    it, and so does a save that fails. *)
Lemma handle_file_present env o root file s path :
  is_Some (disk s !! path) ->
  is_Some (disk (final (handle_file env o root file s)) !! path).
Proof.
  revert s.
  apply (handle_file_T env o
           (fun s s' _ => is_Some (disk s !! path) ->
                          is_Some (disk s' !! path))); try done.
  - intros s1 s2 s3 _ _ H1 H2 H. auto.
  - intros before e after s. cbv zeta.
    destruct (wait_for_rate_limit_frame env o s) as (_ & Hd & _ & _).
    destruct (translate_entry_cases env o (join root file)
                (basename (dirname root)) before e after s)
      as [(_ & Hr) | [(_ & _ & Hr) | [(_ & _ & x & _ & Hr)
         | [(_ & _ & _ & x & _ & Hr) | (_ & _ & _ & tr & _ & Hr)]]]];
      cbv zeta in Hr; rewrite Hr; simpl_state; rewrite ?Hd; try done.
    intros H. apply lookup_insert_is_Some.
    destruct (decide (join root file = path)); [by left|by right].
Qed.

Lemma handle_file_load_failure env o root file s e :
  1 <= requests_per_10s o ->
  result (handle_file env o root file s) = Raise e ->
  disk s !! join root file = None.
Proof.
  intros Hmax. rewrite handle_file_eq. cbv zeta.
  destruct (cap_hit o s); [done|].
  destruct (negb (endswith file ".po")); [done|].
  destruct (bool_decide (locale o ≠ []) && _); [done|].
  rewrite translate_file_eq. cbv zeta.
  destruct (disk s !! join root file) as [po|]; [|done]. simpl_state.
  pose proof (translate_entries_never_raise env o (join root file)
                (basename (dirname root)) po Hmax [] s) as Hno.
  destruct (result (translate_entries _ _ _ _ _ _ _)) as [[[] ?]|x];
    try done. by destruct (Hno x).
Qed.

(** X14.  A run returns normally whenever internationalisation is on,
    a locale path is configured, the rate is at least one and every walked
    catalog of an allowed locale can be loaded: neither the provider nor
    the rate limiter nor the cap can make it fail. *)
Theorem run_completes env o s :
  USE_I18N env = true ->
  LOCALE_PATHS env <> [] ->
  1 <= requests_per_10s o ->
  (forall path, walked_catalog env o path -> is_Some (disk s !! path)) ->
  result (handle env o s) = Ok tt.
Proof.
  intros Hi18n Hpaths Hmax Hdisk. rewrite handle_eq. cbv zeta.
  rewrite Hi18n. destruct (LOCALE_PATHS env) as [|d ds] eqn:Hp; [done|].
  rewrite <- Hp. simpl_state.
  set (s0 := with_request_times [] (with_translated_count 0 s)).
  pose (I := fun s' : State time =>
               forall path, walked_catalog env o path ->
                            is_Some (disk s' !! path)).
  assert (Hloop : I (final (for_ (LOCALE_PATHS env)
                              (handle_directory env o) s0))
                  /\ forall e, result (for_ (LOCALE_PATHS env)
                                         (handle_directory env o) s0)
                               <> Raise e).
  { apply (for_ok I); [|exact Hdisk].
    intros directory s1 Hd Hs1. rewrite handle_directory_eq. cbv zeta.
    destruct (cap_hit o s1); [done|]. simpl_state.
    apply (for_ok I); [|exact Hs1].
    intros [[root dirs] files] s2 Hroot Hs2.
    apply (for_ok I); [|exact Hs2].
    intros file s3 Hfile Hs3. split.
    - intros path Hw. apply handle_file_present. by apply Hs3.
    - intros e He.
      pose proof (handle_file_load_failure env o root file s3 e Hmax He)
        as Hnone.
      destruct (handle_file_raises env o root file s3 e Hmax He)
        as (_ & Hpo & Hloc).
      destruct (Hs3 (join root file)) as [po Hsome]; [|congruence].
      by exists directory, root, dirs, files, file. }
  destruct Hloop as [_ Hno].
  destruct (result (for_ _ _ s0)) as [f|e]; [done|]. by destruct (Hno e).
Qed.

(** ** What the provider is sent *)

Lemma wait_events_well_formed o (w : list (Event time)) :
  forallb is_wait_event w = true -> Forall (well_formed_call o) w.
Proof.
  induction w as [|[[]| | | | | |] w IH]; cbn; intros H;
    try discriminate; constructor; auto; done.
Qed.

Lemma save_report_well_formed o count entry' failure :
  well_formed_call (time := time) o (save_report count entry' failure).
Proof. by destruct failure as [[]|]. Qed.

(** X15.  Every call of the provider in a run passes the configured
    source language and a source text that is not blank. *)
Theorem provider_calls_are_well_formed env o s :
  Forall (well_formed_call o) (events (handle env o s)).
Proof.
  rewrite handle_eq. cbv zeta.
  destruct (USE_I18N env); [|constructor].
  destruct (LOCALE_PATHS env) as [|d ds] eqn:Hpaths; [constructor|].
  rewrite <- Hpaths. simpl_state.
  apply Forall_app. split; [by destruct (truthy_limit o); repeat constructor|].
  constructor; [done|].
  apply (handle_loop_T env o (fun _ _ t => Forall (well_formed_call o) t)).
  - intros _. constructor.
  - intros _ _ _ t1 t2 H1 H2. apply Forall_app. by split.
  - intros s' _. by repeat constructor.
  - intros s' [] _ Hev; try discriminate; by repeat constructor.
  - intros path tgt before e after s'. cbv zeta.
    pose proof (wait_events_well_formed o _
                  (proj2 (proj2 (proj2 (wait_for_rate_limit_frame env o s')))))
      as Hw.
    destruct (translate_entry_cases env o path tgt before e after s')
      as [(_ & Hr) | [(_ & _ & Hr) | [(_ & _ & x & _ & Hr)
         | [(_ & Hsel & _ & x & _ & Hr) | (_ & Hsel & _ & tr & _ & Hr)]]]];
      cbv zeta in Hr; rewrite Hr; simpl_state;
      rewrite ?Forall_app; repeat split; try done; repeat constructor;
      try apply save_report_well_formed;
      by apply selected_rule in Hsel as [? _].
Qed.

(** ** The order of the walk *)

Lemma walks_app t1 t2 : walks (t1 ++ t2) = walks t1 ++ walks t2.
Proof. apply omap_app. Qed.

Lemma about_catalog_no_walk path t :
  Forall (about_catalog path) t -> walks t = [].
Proof.
  induction 1 as [|[] t Hev _ IH]; cbn in *; try done.
Qed.

Lemma handle_file_no_walk env o root file s :
  walks (events (handle_file env o root file s)) = [].
Proof.
  rewrite handle_file_eq. cbv zeta.
  destruct (cap_hit o s); [done|].
  destruct (negb (endswith file ".po")); [done|].
  destruct (bool_decide (locale o ≠ []) && _); [done|].
  rewrite translate_file_eq. cbv zeta.
  destruct (disk s !! join root file) as [po|]; [|done]. simpl_state.
  cbn. apply (about_catalog_no_walk (join root file)).
  apply translate_entries_about.
Qed.

Lemma handle_directory_walks env o directory s :
  walks (events (handle_directory env o directory s))
  = if cap_hit o s then [] else [directory].
Proof.
  rewrite handle_directory_eq. cbv zeta.
  destruct (cap_hit o s); [done|]. simpl_state. cbn. f_equal.
  pose (T := fun (_ _ : State time) (t : list (Event time)) => walks t = []).
  assert (Trefl : forall s0, T s0 s0 []) by done.
  assert (Ttrans : forall s1 s2 s3 t1 t2,
             T s1 s2 t1 -> T s2 s3 t2 -> T s1 s3 (t1 ++ t2)).
  { intros ? ? ? t1 t2 H1 H2. unfold T in *. by rewrite walks_app, H1, H2. }
  refine (for_T T Trefl Ttrans _ _ _ s).
  intros [[root dirs] files] s1 _.
  refine (for_T T Trefl Ttrans _ _ _ s1).
  intros file s2 _. apply handle_file_no_walk.
Qed.

Lemma walks_of_loop env o directories : forall s,
  let r := for_ directories (handle_directory env o) s in
  walks (events r) `prefix_of` directories
  /\ (result r = Ok Continue -> walks (events r) = directories).
Proof.
  induction directories as [|d ds IH]; intros s; [by split|].
  cbv zeta. rewrite for_cons. cbv zeta.
  pose proof (handle_directory_walks env o d s) as Hw.
  pose proof (handle_directory_eq env o d s) as Heq. cbv zeta in Heq.
  destruct (cap_hit o s) eqn:Hcap.
  { rewrite Heq. simpl_state. split; [apply prefix_nil|done]. }
  destruct (result (handle_directory env o d s)) as [[]|e]; simpl_state.
  - rewrite walks_app, Hw. destruct (IH (final (handle_directory env o d s)))
      as [Hp Hfull]. split; [by apply prefix_cons|].
    intros Hres. cbn. f_equal. by apply Hfull.
  - rewrite Hw. split; [|done]. apply prefix_cons, prefix_nil.
  - rewrite Hw. split; [|done]. apply prefix_cons, prefix_nil.
Qed.

(** X16.  A run walks the configured directories in the order of
    [LOCALE_PATHS], each at most once, and stops walking at the first one
    it does not get through; a run that is neither stopped by the cap nor
    by an exception walks them all. *)
Theorem directories_walked_in_order env o s :
  let r := handle env o s in
  let l := for_ (LOCALE_PATHS env) (handle_directory env o)
             (with_request_times [] (with_translated_count 0 s)) in
  walks (events r) `prefix_of` LOCALE_PATHS env
  /\ (USE_I18N env = true -> result l = Ok Continue ->
      walks (events r) = LOCALE_PATHS env).
Proof.
  cbv zeta. rewrite handle_eq. cbv zeta.
  destruct (USE_I18N env); [|split; [apply prefix_nil|done]].
  destruct (LOCALE_PATHS env) as [|d ds] eqn:Hpaths; [by split|].
  rewrite <- Hpaths. simpl_state.
  destruct (walks_of_loop env o (LOCALE_PATHS env)
              (with_request_times [] (with_translated_count 0 s)))
    as [Hp Hfull].
  replace (walks (_ ++ _ :: events _)) with
    (walks (events (for_ (LOCALE_PATHS env) (handle_directory env o)
                      (with_request_times [] (with_translated_count 0 s)))))
    by (by destruct (truthy_limit o)).
  split; [done|]. intros _. exact Hfull.
Qed.

End Catalogs.

Lemma saved_catalogs_keep_their_entries_witness :
  let o := {| locale := []; skip_translated := true; set_fuzzy := true;
              source_language := "en"; limit_translations := None;
              requests_per_10s := 10 |} in
  let po := [entry "Hello" ""; entry "Yes" "Oui"; entry "Bye" ""] in
  let s := with_disk {[demo_path := po]} fresh_state in
  let r := handle_file demo_env o "locale/fr/LC_MESSAGES" "django.po" s in
  Forall (fun save => save.1 = join "locale/fr/LC_MESSAGES" "django.po"
                      /\ Forall2 (edited o) po save.2
                      /\ msgid <$> save.2 = msgid <$> po)
    (saves (events r)).
Proof.
  exact (saved_catalogs_keep_their_entries demo_env
           {| locale := []; skip_translated := true; set_fuzzy := true;
              source_language := "en"; limit_translations := None;
              requests_per_10s := 10 |}
           "locale/fr/LC_MESSAGES" "django.po"
           (with_disk {[demo_path := [entry "Hello" ""; entry "Yes" "Oui";
                                      entry "Bye" ""]]} fresh_state)
           [entry "Hello" ""; entry "Yes" "Oui"; entry "Bye" ""] eq_refl).
Defined.

Lemma translate_file_false_means_cap_witness :
  let o := options (Some 1) 10 in
  let s := with_translated_count 1
             (with_disk {[demo_path := [entry "Hello" ""]]} fresh_state) in
  let r := translate_file demo_env o "locale/fr/LC_MESSAGES" "django.po"
             "fr" s in
  cap_hit o (final r) = true
  /\ (exists L, limit_translations o = Some L /\ L <> 0
                /\ L <= translated_count (final r))
  /\ exists pre,
       events r = pre ++ [EvInfo (LimitReached (limit_translations o))].
Proof.
  apply (translate_file_false_means_cap demo_env (options (Some 1) 10)
           "locale/fr/LC_MESSAGES" "django.po" "fr"
           (with_translated_count 1
              (with_disk {[demo_path := [entry "Hello" ""]]} fresh_state))).
  reflexivity.
Defined.

Lemma run_completes_witness :
  result (handle demo_env (options None 10)
            (with_disk {[demo_path := [entry "Hello" ""]]} fresh_state))
  = Ok tt.
Proof.
  apply (run_completes demo_env (options None 10)
           (with_disk {[demo_path := [entry "Hello" ""]]} fresh_state)).
  - reflexivity.
  - simpl. discriminate.
  - simpl. lia.
  - intros path (d & root & dirs & files & file & _ & Hroot & Hfile & _
                 & -> & _).
    simpl in Hroot.
    repeat (apply elem_of_cons in Hroot as [[= -> -> ->]|Hroot]);
      try (by apply elem_of_nil in Hfile);
      try (by apply elem_of_nil in Hroot).
    apply list_elem_of_singleton in Hfile as ->.
    eexists. reflexivity.
Defined.

(** ** Running again over what a run has translated *)

(** X12.  With [set_fuzzy] on, an entry the run has translated is not
    translated in polib's sense, whatever it was before: if its source
    text is not blank it is selected again even with [skip_translated]
    on, and translating it again appends a second "fuzzy" flag. *)
Theorem fuzzy_entry_is_translated_again (o : Options)
    (first second : string) (e : Entry) :
  set_fuzzy o = true ->
  nonempty (strip (msgid e)) = true ->
  let e1 := set_translation o first e in
  translated e1 = false
  /\ selected o e1 = true
  /\ flags (set_translation o second e1) = flags e ++ ["fuzzy"; "fuzzy"].
Proof.
  intros Hfuzzy Hne e1.
  assert (Hfz : fuzzy e1 = true).
  { unfold fuzzy. subst e1. cbn. rewrite Hfuzzy.
    apply bool_decide_eq_true, elem_of_app. right.
    by apply list_elem_of_singleton. }
  assert (Htr : translated e1 = false).
  { unfold translated. by rewrite Hfz, orb_true_r. }
  split; [exact Htr|]. split.
  - unfold selected. rewrite Htr, andb_false_r. subst e1. cbn. exact Hne.
  - subst e1. cbn. rewrite Hfuzzy. by rewrite <- app_assoc.
Qed.

Lemma fuzzy_entry_is_translated_again_witness :
  let o := {| locale := []; skip_translated := true; set_fuzzy := true;
              source_language := "en"; limit_translations := None;
              requests_per_10s := 10 |} in
  let e1 := set_translation o "Bonjour" (entry "Hello" "") in
  translated e1 = false
  /\ selected o e1 = true
  /\ flags (set_translation o "Salut" e1)
     = flags (entry "Hello" "") ++ ["fuzzy"; "fuzzy"].
Proof.
  apply (fuzzy_entry_is_translated_again
           {| locale := []; skip_translated := true; set_fuzzy := true;
              source_language := "en"; limit_translations := None;
              requests_per_10s := 10 |}
           "Bonjour" "Salut" (entry "Hello" "")); reflexivity.
Defined.
